(** * Content-validation scripts of urbanism-guide-core

    A shallow embedding of [scripts/check-external-links.py] and
    [scripts/validate-timeline.py], followed by the properties of the
    specification stated over it.

    Python [str] values are modelled by [string]; one [ascii] stands for one
    character of the [str] (code points below 256).  Python [int] values are
    modelled by [Z].  What the scripts take from outside (the network, the
    thread pool, the parsed YAML file) enters the model as an argument. *)

From Stdlib Require Import ZArith String Ascii List Bool Lia Permutation.
From Stdlib Require Import DecimalString.
Import ListNotations.

Local Open Scope string_scope.
Local Open Scope Z_scope.

(** ** Python string primitives used by the two scripts *)

Module PyStr.

(** [found.startswith(s)] *)
Fixpoint startswith (s t : string) : bool :=
  match s, t with
  | EmptyString, _ => true
  | String _ _, EmptyString => false
  | String a s', String b t' => Ascii.eqb a b && startswith s' t'
  end.

(** [s in t] for two [str] values: [s] occurs in [t] as a substring. *)
Fixpoint str_in (s t : string) : bool :=
  startswith s t ||
  match t with
  | EmptyString => false
  | String _ t' => str_in s t'
  end.

(** [t[:n]] *)
Fixpoint take (n : nat) (t : string) : string :=
  match n, t with
  | O, _ => EmptyString
  | S _, EmptyString => EmptyString
  | S n', String a t' => String a (take n' t')
  end.

(** Membership of a character in the argument of [rstrip]. *)
Fixpoint char_in (c : ascii) (chars : string) : bool :=
  match chars with
  | EmptyString => false
  | String d chars' => Ascii.eqb c d || char_in c chars'
  end.

(** [t.rstrip(chars)]: drop the longest suffix made of characters of
    [chars]. *)
Fixpoint rstrip (chars t : string) : string :=
  match t with
  | EmptyString => EmptyString
  | String a t' =>
      match rstrip chars t' with
      | EmptyString => if char_in a chars then EmptyString else String a EmptyString
      | r => String a r
      end
  end.

(** [str(n)] for an [int]. *)
Definition str_of_int (n : Z) : string :=
  NilZero.string_of_int (Z.to_int n).

(** [range(n)] *)
Definition range (n : Z) : list Z :=
  map Z.of_nat (seq 0 (Z.to_nat n)).

End PyStr.

Import PyStr.

(** ** check-external-links.py *)

Module LinkChecker.

(** [SKIP_DOMAINS].  The source holds them in a set; the only use is the
    loop of [should_skip_url], whose result does not depend on the order of
    iteration, so the elements are listed in source order. *)
Definition SKIP_DOMAINS : list string :=
  [ "localhost"; "127.0.0.1"; "example.com"; "example.org";
    "github.com"; "raw.githubusercontent.com";
    "twitter.com"; "x.com"; "facebook.com"; "linkedin.com" ].

(** [should_skip_url]: the loop returns [True] at the first domain that
    occurs in the URL, and [False] when it runs out of domains. *)
Fixpoint skip_loop (domains : list string) (url : string) : bool :=
  match domains with
  | [] => false
  | domain :: rest => if str_in domain url then true else skip_loop rest url
  end.

Definition should_skip_url (url : string) : bool :=
  skip_loop SKIP_DOMAINS url.

(** *** Per-line extraction of [find_external_urls]

    The loop body of lines 78-98 works on what [finditer] yields for each
    of the three patterns on the line: the sequence of [match.group(1)]
    values.  It is modelled on these three sequences first; the patterns
    themselves follow. *)

Definition trim (url : string) : string := rstrip ".,;:" url.

(** [any(found_url.startswith(url) and found_url != url
         for found_url in urls_found)] *)
Definition is_strict_prefix_of_found (url : string) (urls_found : list string) : bool :=
  existsb (fun found_url => startswith url found_url && negb (String.eqb found_url url))
          urls_found.

(** [url in urls_found] *)
Definition already_found (url : string) (urls_found : list string) : bool :=
  existsb (String.eqb url) urls_found.

(** The third inner loop (lines 86-93): bare matches are appended to
    [urls_found] one at a time, each test reading the list as it stands. *)
Fixpoint bare_loop (bare : list string) (urls_found : list string) : list string :=
  match bare with
  | [] => urls_found
  | m :: rest =>
      let url := trim m in
      if negb (is_strict_prefix_of_found url urls_found) then
        if negb (already_found url urls_found) then
          bare_loop rest (urls_found ++ [url])
        else bare_loop rest urls_found
      else bare_loop rest urls_found
  end.

(** [urls_found] at the end of lines 78-93. *)
Definition urls_found_on_line (markdown yaml bare : list string) : list string :=
  bare_loop bare (map trim markdown ++ map trim yaml).

(** Lines 95-98: what one line contributes to [file_urls]. *)
Definition line_file_urls (line_num : Z) (markdown yaml bare : list string)
  : list (Z * string) :=
  map (fun url => (line_num, url))
      (filter (fun url => negb (should_skip_url url))
              (urls_found_on_line markdown yaml bare)).

(** *** The three patterns

    Each pattern is matched without any choice that backtracking could
    revise: a repetition is followed by something its own class excludes,
    so the greedy match is the only one.  A match at a position is therefore
    computed by one pass over the text that starts there, which yields
    [group(1)] and the length of the whole match. *)

Definition quote : ascii := "034"%char.
Definition apostrophe : ascii := "039"%char.

(** [\s] on a [str]: the characters for which [str.isspace()] holds. *)
Definition is_space (c : ascii) : bool :=
  let n := nat_of_ascii c in
  ((9 <=? n) && (n <=? 13) || (28 <=? n) && (n <=? 32)
   || (n =? 133) || (n =? 160))%nat.

Definition is_quote (c : ascii) : bool :=
  Ascii.eqb c quote || Ascii.eqb c apostrophe.

(** The rest of [s] after the literal [p], when [s] starts with [p]. *)
Fixpoint strip (p s : string) : option string :=
  match p, s with
  | EmptyString, _ => Some s
  | String _ _, EmptyString => None
  | String a p', String b s' => if Ascii.eqb a b then strip p' s' else None
  end.

(** The longest prefix of [s] made of characters of a class, and the
    rest. *)
Fixpoint span (class : ascii -> bool) (s : string) : string * string :=
  match s with
  | EmptyString => (EmptyString, EmptyString)
  | String c s' =>
      if class c then let '(run, rest) := span class s' in (String c run, rest)
      else (EmptyString, s)
  end.

(** [https?://] *)
Definition scheme (s : string) : option (string * string) :=
  match strip "http" s with
  | None => None
  | Some r =>
      let '(matched, r') :=
        match strip "s" r with
        | Some r1 => ("https", r1)
        | None => ("http", r)
        end in
      match strip "://" r' with
      | Some rest => Some (matched ++ "://", rest)
      | None => None
      end
  end.

Definition strip_optional_quote (s : string) : string * nat :=
  match s with
  | String c s' => if is_quote c then (s', 1%nat) else (s, 0%nat)
  | EmptyString => (s, 0%nat)
  end.

(** [(?:[^()\s]|\([^)]*\))+]: outside a group a character other than a
    parenthesis or a space is taken, and [(] opens a group when a [)]
    follows somewhere; inside a group everything up to the first [)] is
    taken. *)
Fixpoint markdown_body (in_group : bool) (s : string) : string * string :=
  match s with
  | EmptyString => (EmptyString, EmptyString)
  | String c s' =>
      let take_it (in_group' : bool) :=
        let '(run, rest) := markdown_body in_group' s' in (String c run, rest) in
      if in_group then take_it (negb (Ascii.eqb c ")"))
      else if Ascii.eqb c "(" then
        if char_in ")" s' then take_it true else (EmptyString, s)
      else if Ascii.eqb c ")" || is_space c then (EmptyString, s)
      else take_it false
  end.

(** [markdown_link] at the start of [s]. *)
Definition markdown_link_here (s : string) : option (string * nat) :=
  match strip "](" s with
  | None => None
  | Some r =>
      match scheme r with
      | None => None
      | Some (sch, r') =>
          match markdown_body false r' with
          | (EmptyString, _) => None
          | (body, rest) =>
              match strip ")" rest with
              | Some _ =>
                  let url := sch ++ body in
                  Some (url, (String.length url + 3)%nat)
              | None => None
              end
          end
      end
  end.

(** [yaml_url] at the start of [s]. *)
Definition yaml_url_here (s : string) : option (string * nat) :=
  match strip "url:" s with
  | None => None
  | Some r =>
      let '(spaces, r1) := span is_space r in
      let '(r2, opening) := strip_optional_quote r1 in
      match scheme r2 with
      | None => None
      | Some (sch, r3) =>
          match span (fun c => negb (is_space c || is_quote c)) r3 with
          | (EmptyString, _) => None
          | (body, rest) =>
              let url := sch ++ body in
              let '(_, closing) := strip_optional_quote rest in
              Some (url, (4 + String.length spaces + opening
                          + String.length url + closing)%nat)
          end
      end
  end.

(** [bare_url] at the start of [s], [prev] being the character before it. *)
Definition bare_url_here (prev : option ascii) (s : string) : option (string * nat) :=
  let blocked :=
    match prev with
    | Some c => Ascii.eqb c "(" || Ascii.eqb c "[" || is_quote c
    | None => false
    end in
  if blocked then None
  else
    match scheme s with
    | None => None
    | Some (sch, r) =>
        match span (fun c => negb (is_space c || is_quote c || char_in c "<>)]")) r with
        | (EmptyString, _) => None
        | (body, _) =>
            let url := sch ++ body in Some (url, String.length url)
        end
    end.

(** [[m.group(1) for m in pattern.finditer(line)]]: the pattern is tried at
    each position from left to right; after a match the search resumes
    where the match ended.  [skip] counts the characters of the current
    match still to pass, [prev] is the character just passed.  No match of
    the three patterns is empty. *)
Fixpoint finditer (here : option ascii -> string -> option (string * nat))
         (prev : option ascii) (skip : nat) (s : string) : list string :=
  match skip with
  | S skip' =>
      match s with
      | String c s' => finditer here (Some c) skip' s'
      | EmptyString => []
      end
  | O =>
      match here prev s with
      | Some (url, n) =>
          url :: match n, s with
                 | S skip', String c s' => finditer here (Some c) skip' s'
                 | _, _ => []
                 end
      | None =>
          match s with
          | String c s' => finditer here (Some c) O s'
          | EmptyString => []
          end
      end
  end.

Definition markdown_link (line : string) : list string :=
  finditer (fun _ => markdown_link_here) None O line.

Definition yaml_url (line : string) : list string :=
  finditer (fun _ => yaml_url_here) None O line.

Definition bare_url (line : string) : list string :=
  finditer bare_url_here None O line.

(** Lines 78-98 for one line of a file. *)
Definition urls_on_line (line_num : Z) (line : string) : list (Z * string) :=
  line_file_urls line_num (markdown_link line) (yaml_url line) (bare_url line).

(** Lines 76-98: [for line_num, line in enumerate(content.splitlines(), 1)],
    the lines numbered from [line_num] on. *)
Fixpoint file_urls (line_num : Z) (lines : list string) : list (Z * string) :=
  match lines with
  | [] => []
  | line :: rest => (urls_on_line line_num line ++ file_urls (line_num + 1) rest)%list
  end.

(** [find_external_urls] over the files the walk reads, each given by its
    path relative to the repository root and its lines: a file enters the
    result when it holds at least one URL (lines 100-102). *)
Fixpoint find_external_urls (files : list (string * list string))
  : list (string * list (Z * string)) :=
  match files with
  | [] => []
  | (rel_path, lines) :: rest =>
      match file_urls 1 lines with
      | [] => find_external_urls rest
      | urls => (rel_path, urls) :: find_external_urls rest
      end
  end.

(** *** [check_url] *)

(** What one pass through the [try] block yields: the decoded body of a
    response, or the exception that [urlopen]/[read] raised, by the
    [except] clause that catches it. *)
Inductive fetch_outcome : Type :=
| Response (content : string)
| HTTPError (code : Z)
| URLError (reason : string)
| OtherException (msg : string).

(** Observable effects of a run, in order. *)
Inductive event : Type :=
| EvRequest (attempt : Z)
| EvSleep (seconds : Z).

(** The [return] statement a run leaves through (source line in comment). *)
Inductive return_site : Type :=
| ret_soft_404 (pattern : string)      (* line 152 *)
| ret_ok                               (* line 154 *)
| ret_http_404                         (* line 158 *)
| ret_http_403                         (* line 161 *)
| ret_http_exhausted (code : Z)        (* line 166 *)
| ret_http_other (code : Z)            (* line 168 *)
| ret_connection_error (reason : string)  (* line 174 *)
| ret_exception (msg : string)         (* line 177 *)
| ret_max_retries.                     (* line 179 *)

Definition soft_404_patterns : list string :=
  [ "Page Not Found";
    "page not found";
    "404 - Not Found";
    "Sorry, we couldn't find";
    "This page doesn't exist";
    "Nothing was found";
    "Oops! That page can't be found" ].

(** The condition of lines 146-151 for one pattern.  Python parses
    [a or b or c and d] as [a or b or (c and d)]. *)
Definition soft_404_hit (pattern content : string) : bool :=
  str_in pattern content &&
  (str_in ("<title>" ++ pattern) content
   || str_in ("<h1>" ++ pattern) content
   || (str_in "<h1 class" content && str_in pattern (take 5000 content))).

(** The loop of lines 145-152: the first pattern that hits, if any. *)
Fixpoint soft_404_scan (patterns : list string) (content : string) : option string :=
  match patterns with
  | [] => None
  | pattern :: rest =>
      if soft_404_hit pattern content then Some pattern
      else soft_404_scan rest content
  end.

Definition retryable (code : Z) : bool :=
  (code =? 406) || (code =? 429) || (code =? 503).

(** The [for attempt in range(retries + 1)] loop.  [urlopen attempt] is what
    the [try] block of that attempt yields. *)
Fixpoint attempt_loop (urlopen : Z -> fetch_outcome) (retries : Z)
         (attempts : list Z) : return_site * list event :=
  match attempts with
  | [] => (ret_max_retries, [])
  | attempt :: rest =>
      let again :=
        let '(r, tr) := attempt_loop urlopen retries rest in
        (r, EvRequest attempt :: EvSleep (2 ^ attempt) :: tr) in
      let leave r := (r, [EvRequest attempt]) in
      match urlopen attempt with
      | Response content =>
          match soft_404_scan soft_404_patterns content with
          | Some pattern => leave (ret_soft_404 pattern)
          | None => leave ret_ok
          end
      | HTTPError code =>
          if code =? 404 then leave ret_http_404
          else if code =? 403 then leave ret_http_403
          else if retryable code then
            if attempt <? retries then again
            else leave (ret_http_exhausted code)
          else leave (ret_http_other code)
      | URLError reason =>
          if attempt <? retries then again
          else leave (ret_connection_error reason)
      | OtherException msg => leave (ret_exception msg)
      end
  end.

(** The pair each [return] statement builds. *)
Definition returned (retries : Z) (r : return_site) : bool * string :=
  match r with
  | ret_soft_404 pattern =>
      (false, "Soft 404 detected (page contains '" ++ pattern ++ "')")
  | ret_ok => (true, "")
  | ret_http_404 => (false, "HTTP 404 Not Found")
  | ret_http_403 => (true, "")
  | ret_http_exhausted code =>
      (false, "HTTP " ++ str_of_int code ++ " (after "
                ++ str_of_int (retries + 1) ++ " attempts)")
  | ret_http_other code => (false, "HTTP " ++ str_of_int code)
  | ret_connection_error reason => (false, "Connection error: " ++ reason)
  | ret_exception msg => (false, "Error: " ++ msg)
  | ret_max_retries => (false, "Max retries exceeded")
  end.

Record run : Type := mkRun {
  site : return_site;
  value : bool * string;
  trace : list event
}.

(** [check_url(url, retries)].  [net url attempt] is the outcome of the
    request the given attempt makes for [url]. *)
Definition check_url (net : string -> Z -> fetch_outcome) (url : string)
           (retries : Z) : run :=
  let '(r, tr) := attempt_loop (net url) retries (range (retries + 1)) in
  mkRun r (returned retries r) tr.

Definition requests (tr : list event) : list Z :=
  flat_map (fun e => match e with EvRequest a => [a] | EvSleep _ => [] end) tr.

Definition sleeps (tr : list event) : list Z :=
  flat_map (fun e => match e with EvSleep s => [s] | EvRequest _ => [] end) tr.

End LinkChecker.

(** *** [main] of the link checker *)

Module LinkMain.

Import LinkChecker.

(** [url_map]: file path -> list of (line number, url), in dict order. *)
Definition url_map_t : Type := list (string * list (Z * string)).

(** [unique_urls]: url -> list of (file path, line number), in insertion
    order. *)
Definition unique_urls_t : Type := list (string * list (string * Z)).

(** Lines 200-202: create the entry when the URL is new, then append the
    location to it. *)
Fixpoint add_location (url : string) (loc : string * Z) (unique_urls : unique_urls_t)
  : unique_urls_t :=
  match unique_urls with
  | [] => [(url, [loc])]
  | (u, locs) :: rest =>
      if String.eqb u url then (u, (locs ++ [loc])%list) :: rest
      else (u, locs) :: add_location url loc rest
  end.

(** Lines 197-202. *)
Definition deduplicate (url_map : url_map_t) : unique_urls_t :=
  fold_left
    (fun acc '(file_path, urls) =>
       fold_left (fun acc' '(line_num, url) => add_location url (file_path, line_num) acc')
                 urls acc)
    url_map [].

(** Lines 219-231: the futures are consumed in completion order; a URL whose
    result is not valid is appended to [broken_links]. *)
Fixpoint collect_broken (check : string -> bool * string)
         (completed : unique_urls_t)
  : list (string * string * list (string * Z)) :=
  match completed with
  | [] => []
  | (url, locations) :: rest =>
      let '(is_valid, error) := check url in
      if negb is_valid then (url, error, locations) :: collect_broken check rest
      else collect_broken check rest
  end.

(** [main]: the status passed to [sys.exit].  [net] is the network as
    [check_url] sees it, [as_completed] the order in which the pool hands
    the submitted checks back. *)
Definition main (url_map : url_map_t)
           (net : string -> Z -> fetch_outcome)
           (as_completed : unique_urls_t -> unique_urls_t) : Z :=
  match url_map with
  | [] => 0                                            (* line 194 *)
  | _ =>
      let unique_urls := deduplicate url_map in
      let broken_links :=
        collect_broken (fun url => value (check_url net url 2))
                       (as_completed unique_urls) in
      match broken_links with
      | _ :: _ => 1                                    (* line 250 *)
      | [] => 0                                        (* line 253 *)
      end
  end.

End LinkMain.

(** ** validate-timeline.py *)

Module Timeline.

(** Values [yaml.safe_load] builds. *)
#[warnings="-register-all"]
Inductive yaml : Type :=
| YNull                                   (* None *)
| YBool (b : bool)
| YInt (n : Z)
| YFloat (nonzero : bool) (text : string) (* text: its str() *)
| YStr (s : string)
| YTimestamp (has_time : bool) (text : string) (* date / datetime *)
| YBinary (data : string)                 (* bytes *)
| YSeq (items : list yaml)                (* list *)
| YSet (items : list yaml)                (* set *)
| YMap (items : list (yaml * yaml)).      (* dict, items in order *)

Inductive exn : Type :=
| TypeError
| KeyError
| AttributeError
| IndexError
| OtherError (type_name : string).   (* any other exception class, by name *)

(** A computation that returns or raises. *)
Inductive outcome (A : Type) : Type :=
| Return (a : A)
| Raise (e : exn).
Arguments Return {A} a.
Arguments Raise {A} e.

Definition bind {A B : Type} (m : outcome A) (k : A -> outcome B) : outcome B :=
  match m with
  | Return a => k a
  | Raise e => Raise e
  end.

Notation "x <- m ;; k" := (bind m (fun x => k))
  (at level 61, m at next level, right associativity).

(** Truth value of a loaded document, as [not entries] reads it. *)
Definition truthy (v : yaml) : bool :=
  match v with
  | YNull => false
  | YBool b => b
  | YInt n => negb (n =? 0)
  | YFloat nonzero _ => nonzero
  | YStr s => negb (String.eqb s "")
  | YTimestamp _ _ => true
  | YBinary data => negb (String.eqb data "")
  | YSeq items | YSet items => match items with [] => false | _ => true end
  | YMap items => match items with [] => false | _ => true end
  end.

(** [k == key] for a [str] [key]: only a [str] equals a [str]. *)
Definition is_key (key : string) (k : yaml) : bool :=
  match k with
  | YStr s => String.eqb s key
  | _ => false
  end.

Fixpoint lookup (key : string) (items : list (yaml * yaml)) : option yaml :=
  match items with
  | [] => None
  | (k, v) :: rest => if is_key key k then Some v else lookup key rest
  end.

(** [key in entry] for a [str] [key]. *)
Definition contains (key : string) (entry : yaml) : outcome bool :=
  match entry with
  | YMap items => Return (match lookup key items with Some _ => true | None => false end)
  | YStr s => Return (str_in key s)
  | YSeq items | YSet items => Return (existsb (is_key key) items)
  | YNull | YBool _ | YInt _ | YFloat _ _ | YTimestamp _ _ | YBinary _ => Raise TypeError
  end.

(** [entry[key]] for a [str] [key]. *)
Definition getitem (key : string) (entry : yaml) : outcome yaml :=
  match entry with
  | YMap items =>
      match lookup key items with
      | Some v => Return v
      | None => Raise KeyError
      end
  | _ => Raise TypeError
  end.

(** [entry.get(key, default)]; only a dict has the method. *)
Definition get (key : string) (default : yaml) (entry : yaml) : outcome yaml :=
  match entry with
  | YMap items =>
      Return (match lookup key items with Some v => v | None => default end)
  | _ => Raise AttributeError
  end.

(** [isinstance(v, int)]: [bool] is a subclass of [int]. *)
Definition isinstance_int (v : yaml) : bool :=
  match v with
  | YInt _ | YBool _ => true
  | _ => false
  end.

(** [type(v).__name__] *)
Definition type_name (v : yaml) : string :=
  match v with
  | YNull => "NoneType"
  | YBool _ => "bool"
  | YInt _ => "int"
  | YFloat _ _ => "float"
  | YStr _ => "str"
  | YTimestamp has_time _ => if has_time then "datetime" else "date"
  | YBinary _ => "bytes"
  | YSeq _ => "list"
  | YSet _ => "set"
  | YMap _ => "dict"
  end.

(** The integer an [int] instance stands for in a comparison. *)
Definition int_value (v : yaml) : option Z :=
  match v with
  | YInt n => Some n
  | YBool b => Some (if b then 1 else 0)
  | _ => None
  end.

(** [a < b].  The script only compares values that passed
    [isinstance(_, int)] (see [check_year_fields_clean] below); on such
    values this is integer comparison.  Other operands are not compared by
    the script and are given [TypeError] here. *)
Definition lt (a b : yaml) : outcome bool :=
  match int_value a, int_value b with
  | Some x, Some y => Return (x <? y)
  | _, _ => Raise TypeError
  end.

(** [xs[i]]: a negative index counts from the end. *)
Definition index {A : Type} (xs : list A) (i : Z) : outcome A :=
  let j := if i <? 0 then i + Z.of_nat (length xs) else i in
  if j <? 0 then Raise IndexError
  else
    match nth_error xs (Z.to_nat j) with
    | Some x => Return x
    | None => Raise IndexError
    end.

Section Validate.

(** Python's [str()] of a list, set, dict or bytes value, which formatting a
    title of such a type calls; taken as given. *)
Variable container_str : yaml -> string.

(** [str(v)], as an f-string field applies it. *)
Definition py_str (v : yaml) : string :=
  match v with
  | YNull => "None"
  | YBool b => if b then "True" else "False"
  | YInt n => str_of_int n
  | YFloat _ text => text
  | YStr s => s
  | YTimestamp _ text => text
  | YBinary _ | YSeq _ | YSet _ | YMap _ => container_str v
  end.

Definition missing_year_error (i : Z) : string :=
  "Entry " ++ str_of_int (i + 1) ++ " is missing 'year' field".

Definition year_type_error (i : Z) (year : yaml) : string :=
  "Entry " ++ str_of_int (i + 1) ++ ": 'year' must be an integer, got "
    ++ type_name year.

Definition order_violation_error (entry_title year next_title next_year : yaml)
  : string :=
  "Order violation: '" ++ py_str entry_title ++ "' (" ++ py_str year
    ++ ") appears before '" ++ py_str next_title ++ "' (" ++ py_str next_year
    ++ "). Timeline must be in reverse chronological order (newest first).".

(** Lines 38-42: [for i, entry in enumerate(entries)], [i] counting from
    the given start, [errors] threaded through. *)
Fixpoint check_year_fields (i : Z) (entries : list yaml) (errors : list string)
  : outcome (list string) :=
  match entries with
  | [] => Return errors
  | entry :: rest =>
      has_year <- contains "year" entry ;;
      if negb has_year then
        check_year_fields (i + 1) rest (errors ++ [missing_year_error i])
      else
        year <- getitem "year" entry ;;
        if negb (isinstance_int year) then
          check_year_fields (i + 1) rest (errors ++ [year_type_error i year])
        else
          check_year_fields (i + 1) rest errors
  end.

(** Line 48: [[entry['year'] for entry in entries]] *)
Fixpoint collect_years (entries : list yaml) : outcome (list yaml) :=
  match entries with
  | [] => Return []
  | entry :: rest =>
      year <- getitem "year" entry ;;
      years <- collect_years rest ;;
      Return (year :: years)
  end.

(** Lines 50-58: [for i in range(len(years) - 1)] over the given indices. *)
Fixpoint check_order (entries years : list yaml) (indices : list Z)
         (errors : list string) : outcome (list string) :=
  match indices with
  | [] => Return errors
  | i :: rest =>
      year <- index years i ;;
      next_year <- index years (i + 1) ;;
      out_of_order <- lt year next_year ;;
      if out_of_order then
        entry <- index entries i ;;
        entry_title <- get "title" (YStr "Unknown") entry ;;
        next_entry <- index entries (i + 1) ;;
        next_title <- get "title" (YStr "Unknown") next_entry ;;
        check_order entries years rest
          (errors ++ [order_violation_error entry_title year next_title next_year])
      else
        check_order entries years rest errors
  end.

Definition is_empty {A : Type} (xs : list A) : bool :=
  match xs with [] => true | _ => false end.

(** Lines 31-60: what [validate_timeline] does with the loaded document. *)
Definition validate_entries (entries : yaml) : outcome (bool * list string) :=
  if negb (truthy entries) then Return (false, ["Timeline file is empty"])
  else
    match entries with
    | YSeq items =>
        errors <- check_year_fields 0 items [] ;;
        if negb (is_empty errors) then Return (false, errors)
        else
          years <- collect_years items ;;
          errors <- check_order items years
                      (range (Z.of_nat (length years) - 1)) errors ;;
          Return (is_empty errors, errors)
    | _ => Return (false, ["Timeline must be a list of entries"])
    end.

(** What opening and parsing the file yields (lines 23-29): one of the two
    exceptions the [except] clauses catch, the loaded document, or an
    exception that neither clause catches ([PermissionError],
    [IsADirectoryError], [UnicodeDecodeError], ...), which leaves the
    function as it is. *)
Inductive loaded : Type :=
| FileNotFoundError
| YAMLError (detail : string)
| Document (entries : yaml)
| LoadError (e : exn).

Definition validate_timeline (timeline_path : string) (file : loaded)
  : outcome (bool * list string) :=
  match file with
  | FileNotFoundError =>
      Return (false, ["Timeline file not found: " ++ timeline_path])
  | YAMLError detail => Return (false, ["Invalid YAML syntax: " ++ detail])
  | Document entries => validate_entries entries
  | LoadError e => Raise e
  end.

End Validate.

End Timeline.

(** ** The rest of the two scripts: text lines, printed reports, the
    timeline's [main] *)

Module TextLines.

Import LinkChecker.

(** The characters at which [str.splitlines()] breaks a line. *)
Definition is_linebreak (c : ascii) : bool :=
  let n := nat_of_ascii c in
  ((10 <=? n) && (n <=? 13) || (28 <=? n) && (n <=? 30) || (n =? 133))%nat.

Definition CR : ascii := "013"%char.
Definition LF : ascii := "010"%char.

(** The pieces of [s] between line breaks, the piece after the last break
    included; a carriage return followed by a line feed is one break. *)
Fixpoint pieces (s : string) : list string :=
  match s with
  | EmptyString => [EmptyString]
  | String c s' =>
      if is_linebreak c then
        match s' with
        | String d s'' =>
            if Ascii.eqb c CR && Ascii.eqb d LF then EmptyString :: pieces s''
            else EmptyString :: pieces s'
        | EmptyString => EmptyString :: pieces s'
        end
      else
        match pieces s' with
        | piece :: rest => String c piece :: rest
        | [] => [String c EmptyString]
        end
  end.

(** A last piece that is empty is no line. *)
Fixpoint drop_empty_tail (ps : list string) : list string :=
  match ps with
  | [] => []
  | [EmptyString] => []
  | p :: rest => p :: drop_empty_tail rest
  end.

(** [content.splitlines()] *)
Definition splitlines (content : string) : list string :=
  drop_empty_tail (pieces content).

(** [find_external_urls] over the text of the files read (lines 72-102). *)
Definition find_external_urls_in_text (files : list (string * string))
  : list (string * list (Z * string)) :=
  find_external_urls (map (fun '(rel_path, content) => (rel_path, splitlines content)) files).

End TextLines.

Module LinkReport.

Import LinkChecker LinkMain.

Definition MAX_WORKERS : Z := 10.

(** [url[:70] + "..." if len(url) > 70 else url] *)
Definition display_url (url : string) : string :=
  if (70 <? String.length url)%nat then take 70 url ++ "..." else url.

(** Lines 219-231: what the loop prints as the checks complete, [checked]
    being the count before the first of them. *)
Fixpoint progress (check : string -> bool * string) (total checked : Z)
         (completed : unique_urls_t) : list string :=
  match completed with
  | [] => []
  | (url, locations) :: rest =>
      let checked := checked + 1 in
      let tag := "  [" ++ str_of_int checked ++ "/" ++ str_of_int total ++ "] " in
      let '(is_valid, error) := check url in
      let printed :=
        if negb is_valid then
          [tag ++ "BROKEN: " ++ display_url url; "           " ++ error]
        else [tag ++ "OK: " ++ display_url url] in
      app printed (progress check total checked rest)
  end.

Definition location_line (location : string * Z) : string :=
  let '(file_path, line_num) := location in
  "  - " ++ file_path ++ ":" ++ str_of_int line_num.

(** Lines 242-248: the report of one broken link. *)
Definition report_entry (broken : string * string * list (string * Z)) : list string :=
  let '(url, error, locations) := broken in
  app ["URL: " ++ url; "Error: " ++ error; "Found in:"]
      (app (map location_line locations) [""]).

Definition rule : string :=
  "============================================================".

(** [main]: the lines printed and the status passed to [sys.exit]. *)
Definition main_run (url_map : url_map_t)
           (net : string -> Z -> fetch_outcome)
           (as_completed : unique_urls_t -> unique_urls_t) : list string * Z :=
  let banner := ["Checking external links for broken URLs..."; ""] in
  match url_map with
  | [] => (app banner ["No external URLs found in the repository."], 0)
  | _ =>
      let unique_urls := deduplicate url_map in
      let total := Z.of_nat (length unique_urls) in
      let check := fun url => value (check_url net url 2) in
      let completed := as_completed unique_urls in
      let broken_links := collect_broken check completed in
      let found :=
        [ "Found " ++ str_of_int total ++ " unique external URLs across "
            ++ str_of_int (Z.of_nat (length url_map)) ++ " files";
          "Checking with " ++ str_of_int MAX_WORKERS ++ " concurrent workers...";
          "" ] in
      let head :=
        app banner (app found (app (progress check total 0 completed) [""])) in
      match broken_links with
      | _ :: _ =>
          let title :=
            [ rule;
              "BROKEN LINKS FOUND: " ++ str_of_int (Z.of_nat (length broken_links));
              rule; "" ] in
          (app head (app title (flat_map report_entry broken_links)), 1)
      | [] =>
          let all_valid :=
            "All " ++ str_of_int total ++ " external links are valid!" in
          (app head [all_valid], 0)
      end
  end.

End LinkReport.

Module TimelineMain.

Import Timeline.

(** How a run of the script ends: by [sys.exit] after printing, or by an
    exception nobody catches. *)
Inductive ending : Type :=
| Exit (stdout : list string) (status : Z)
| Uncaught (e : exn)
| UncaughtValueError.

(** [max(years)]: the first item is kept until a later one is greater. *)
Fixpoint max_from (current : yaml) (items : list yaml) : outcome yaml :=
  match items with
  | [] => Return current
  | item :: rest =>
      greater <- lt current item ;;
      max_from (if greater then item else current) rest
  end.

(** [min(years)]: the first item is kept until a later one is less. *)
Fixpoint min_from (current : yaml) (items : list yaml) : outcome yaml :=
  match items with
  | [] => Return current
  | item :: rest =>
      less <- lt item current ;;
      min_from (if less then item else current) rest
  end.

Section Main.

Variable container_str : yaml -> string.

(** Lines 78-83, for the entries the second [safe_load] yields.  [None]
    stands for [ValueError], which [max] raises on an empty list. *)
Definition summary (entries : list yaml) : outcome (option string) :=
  years <- collect_years entries ;;
  match years with
  | [] => Return None
  | first :: rest =>
      newest <- max_from first rest ;;
      oldest <- min_from first rest ;;
      Return (Some ("Timeline is valid: "
                      ++ str_of_int (Z.of_nat (length entries)) ++ " entries, "
                      ++ py_str container_str newest ++ "-"
                      ++ py_str container_str oldest))
  end.

(** [main], given the path it settles on (as text) and what reading the
    file there yields; the file is read twice and yields the same both
    times.  The success branch is only taken on a sequence (see
    [valid_is_sequence] below); on other documents the model gives
    [TypeError]. *)
Definition main (timeline_path : string) (file : loaded) : ending :=
  let header := "Validating timeline: " ++ timeline_path in
  match validate_timeline container_str timeline_path file with
  | Raise e => Uncaught e
  | Return (is_valid, errors) =>
      if is_valid then
        match file with
        | Document (YSeq entries) =>
            match summary entries with
            | Raise e => Uncaught e
            | Return None => UncaughtValueError
            | Return (Some line) => Exit [header; line] 0
            end
        | _ => Uncaught TypeError
        end
      else
        Exit (app [header; "Timeline validation failed:"]
                  (map (fun error => "  - " ++ error) errors)) 1
  end.

End Main.

End TimelineMain.

(** * Properties *)

(** ** Strings *)

Section StringFacts.

Lemma startswith_iff (s t : string) :
  startswith s t = true <-> exists r, t = s ++ r.
Proof.
  revert t; induction s as [|a s IH]; intros t; simpl.
  - split; [intros _; exists t; reflexivity | reflexivity].
  - destruct t as [|b t].
    + split; [discriminate | intros [r Hr]; discriminate].
    + rewrite andb_true_iff, Ascii.eqb_eq, IH. split.
      * intros [-> [r ->]]. exists r. reflexivity.
      * intros [r Hr]. injection Hr as -> ->. split; [reflexivity | now exists r].
Qed.

Lemma str_in_iff (s t : string) :
  str_in s t = true <-> exists a b, t = a ++ s ++ b.
Proof.
  induction t as [|c t IH]; simpl.
  - rewrite orb_false_r, startswith_iff. split.
    + intros [r ->]. exists "", r. reflexivity.
    + intros [a [b H]]. destruct a; simpl in H; [now exists b | discriminate].
  - rewrite orb_true_iff, startswith_iff, IH. split.
    + intros [[r Hr] | [a [b ->]]].
      * exists "", r. exact Hr.
      * exists (String c a), b. reflexivity.
    + intros [a [b H]]. destruct a as [|c' a]; simpl in H.
      * left. now exists b.
      * right. injection H as _ ->. now exists a, b.
Qed.

Lemma append_assoc (a b c : string) : (a ++ b) ++ c = a ++ b ++ c.
Proof. induction a; simpl; congruence. Qed.

Lemma str_in_append_l (s1 s2 t : string) :
  str_in (s1 ++ s2) t = true -> str_in s1 t = true.
Proof.
  rewrite !str_in_iff. intros [a [b ->]].
  exists a, (s2 ++ b). now rewrite append_assoc.
Qed.

Lemma str_in_append_r (s1 s2 t : string) :
  str_in (s1 ++ s2) t = true -> str_in s2 t = true.
Proof.
  rewrite !str_in_iff. intros [a [b ->]].
  exists (a ++ s1), b. now rewrite !append_assoc.
Qed.

Lemma take_prefix (n : nat) (t : string) : exists r, t = take n t ++ r.
Proof.
  revert t; induction n as [|n IH]; intros t; simpl.
  - now exists t.
  - destruct t as [|a t]; [now exists "" |].
    destruct (IH t) as [r Hr]. exists r. simpl. congruence.
Qed.

Lemma str_in_take (s t : string) (n : nat) :
  str_in s (take n t) = true -> str_in s t = true.
Proof.
  destruct (take_prefix n t) as [r Hr].
  rewrite !str_in_iff. intros [a [b Hab]].
  exists a, (b ++ r). rewrite Hr at 1. rewrite Hab, !append_assoc. reflexivity.
Qed.

End StringFacts.

(** ** Lists and [range] *)

Lemma filter_split {A : Type} (f : A -> bool) (l before after : list A) (x : A) :
  filter f l = (before ++ x :: after)%list ->
  exists before' after',
    l = (before' ++ x :: after')%list /\ filter f before' = before.
Proof.
  revert before. induction l as [|a l IH]; intros before; simpl.
  - destruct before; discriminate.
  - destruct (f a) eqn:E.
    + destruct before as [|b before]; simpl.
      * intros [= -> _]. exists [], l. now split.
      * intros [= -> H]. destruct (IH _ H) as [b' [a' [-> Hb]]].
        exists (b :: b'), a'. split; [reflexivity|]. simpl. now rewrite E, Hb.
    + intros H. destruct (IH _ H) as [b' [a' [-> Hb]]].
      exists (a :: b'), a'. split; [reflexivity|]. simpl. now rewrite E.
Qed.

Lemma filter_nil_iff {A : Type} (f : A -> bool) (l : list A) :
  filter f l = [] <-> forall x, In x l -> f x = false.
Proof.
  induction l as [|a l IH]; simpl.
  - split; [intros _ ? [] | reflexivity].
  - destruct (f a) eqn:E.
    + split; [discriminate|]. intros H. specialize (H a (or_introl eq_refl)).
      congruence.
    + rewrite IH. split.
      * intros H x [<- | Hx]; auto.
      * intros H x Hx. apply H. now right.
Qed.

Lemma range_snoc (n : Z) : 0 <= n -> range (n + 1) = (range n ++ [n])%list.
Proof.
  intros Hn. unfold range.
  replace (Z.to_nat (n + 1)) with (Z.to_nat n + 1)%nat by lia.
  rewrite seq_app, map_app. simpl. now rewrite Z2Nat.id.
Qed.

Lemma in_range (n a : Z) : In a (range n) <-> 0 <= a < n.
Proof.
  unfold range. rewrite in_map_iff. split.
  - intros [k [<- Hk]]. apply in_seq in Hk. lia.
  - intros Ha. exists (Z.to_nat a). split; [lia | apply in_seq; lia].
Qed.

Lemma length_range (n : Z) : length (range n) = Z.to_nat n.
Proof. unfold range. now rewrite length_map, length_seq. Qed.

Lemma range_nonpos (n : Z) : n <= 0 -> range n = [].
Proof.
  intros Hn. unfold range. now replace (Z.to_nat n) with 0%nat by lia.
Qed.

(** ** [check_url] *)

Module CheckUrlFacts.

Import LinkChecker.

Lemma retryable_iff (code : Z) :
  retryable code = true <-> code = 406 \/ code = 429 \/ code = 503.
Proof. unfold retryable. rewrite !orb_true_iff, !Z.eqb_eq. tauto. Qed.

(** A loop whose last attempt is numbered [retries] leaves through a
    [return] of the loop body. *)
Lemma attempt_loop_returns_inside urlopen retries attempts :
  (forall a, In a attempts -> a < retries) ->
  fst (attempt_loop urlopen retries (attempts ++ [retries])) <> ret_max_retries.
Proof.
  induction attempts as [|a rest IH]; intros Hlt; cbn [app attempt_loop].
  - rewrite Z.ltb_irrefl.
    destruct (urlopen retries) as [content|code|reason|msg];
      try (cbn [fst]; discriminate).
    + destruct (soft_404_scan soft_404_patterns content); discriminate.
    + destruct (code =? 404); [discriminate|].
      destruct (code =? 403); [discriminate|].
      destruct (retryable code); discriminate.
  - assert (IH' := IH (fun b Hb => Hlt b (or_intror Hb))).
    destruct (attempt_loop urlopen retries (rest ++ [retries])) as [r tr].
    cbn [fst] in IH'.
    destruct (urlopen a) as [content|code|reason|msg];
      try (cbn [fst]; discriminate).
    + destruct (soft_404_scan soft_404_patterns content); discriminate.
    + destruct (code =? 404); [discriminate|].
      destruct (code =? 403); [discriminate|].
      destruct (retryable code); [|discriminate].
      destruct (a <? retries); [exact IH' | discriminate].
    + destruct (a <? retries); [exact IH' | discriminate].
Qed.

(** The trace of a run in which every attempt meets the same retryable
    status. *)
Lemma attempt_loop_all_retryable urlopen retries code attempts :
  retryable code = true ->
  (forall a, In a attempts -> a < retries) ->
  (forall a, In a (attempts ++ [retries]) -> urlopen a = HTTPError code) ->
  attempt_loop urlopen retries (attempts ++ [retries]) =
    (ret_http_exhausted code,
     (flat_map (fun a => [EvRequest a; EvSleep (2 ^ a)]) attempts
        ++ [EvRequest retries])%list).
Proof.
  intros Hc. apply retryable_iff in Hc.
  assert (H404 : (code =? 404) = false) by (apply Z.eqb_neq; lia).
  assert (H403 : (code =? 403) = false) by (apply Z.eqb_neq; lia).
  assert (Hr : retryable code = true) by (apply retryable_iff; exact Hc).
  induction attempts as [|a rest IH]; intros Hlt Hnet; simpl.
  - rewrite (Hnet retries (or_introl eq_refl)), H404, H403, Hr, Z.ltb_irrefl.
    reflexivity.
  - rewrite (Hnet a (or_introl eq_refl)), H404, H403, Hr.
    rewrite IH.
    + assert ((a <? retries) = true) as -> by (apply Z.ltb_lt, Hlt; now left).
      reflexivity.
    + intros b Hb. apply Hlt. now right.
    + intros b Hb. apply Hnet. now right.
Qed.

Lemma requests_retry_trace (attempts : list Z) (last : Z) :
  requests (flat_map (fun a => [EvRequest a; EvSleep (2 ^ a)]) attempts
              ++ [EvRequest last]) = (attempts ++ [last])%list.
Proof.
  unfold requests. induction attempts as [|a rest IH]; simpl; [reflexivity|].
  now rewrite IH.
Qed.

Lemma sleeps_retry_trace (attempts : list Z) (last : Z) :
  sleeps (flat_map (fun a => [EvRequest a; EvSleep (2 ^ a)]) attempts
            ++ [EvRequest last]) = map (fun a => 2 ^ a) attempts.
Proof.
  unfold sleeps. induction attempts as [|a rest IH]; simpl; [reflexivity|].
  now rewrite IH.
Qed.

(** A run whose first attempt is decided on the spot. *)
Lemma first_attempt_decides net url retries r :
  0 <= retries ->
  (forall rest, attempt_loop (net url) retries (0 :: rest) = (r, [EvRequest 0])) ->
  check_url net url retries = mkRun r (returned retries r) [EvRequest 0].
Proof.
  intros Hr H. unfold check_url.
  assert (exists rest, range (retries + 1) = 0 :: rest) as [rest ->].
  { unfold range. destruct (Z.to_nat (retries + 1)) eqn:E; [lia|].
    simpl. eexists. reflexivity. }
  now rewrite H.
Qed.

End CheckUrlFacts.

Module CheckUrlSpec.

Import LinkChecker CheckUrlFacts.

(** The soft-404 condition as the code tests it, spelled out: the phrase
    occurs in the body, and the body holds the phrase right after an opening
    [<title>], or right after an opening [<h1>], or holds the marker
    [<h1 class] while the phrase occurs in its first 5000 characters. *)
Definition anchored (phrase body : string) : Prop :=
  str_in phrase body = true /\
  (str_in ("<title>" ++ phrase) body = true
   \/ str_in ("<h1>" ++ phrase) body = true
   \/ (str_in "<h1 class" body = true
       /\ str_in phrase (take 5000 body) = true)).

(** The soft-404 condition in the words of the specification: the phrase
    lies inside a [<tag>] element, between the opening tag and the closing
    tag that follows it. *)
Definition inside_tag (tag phrase body : string) : Prop :=
  exists before left right after,
    body = before ++ "<" ++ tag ++ ">" ++ left ++ phrase ++ right
             ++ "</" ++ tag ++ ">" ++ after
    /\ str_in ("</" ++ tag ++ ">") (left ++ phrase ++ right) = false.

Definition soft_404_as_specified (body : string) : Prop :=
  exists phrase,
    In phrase soft_404_patterns /\ str_in phrase body = true /\
    (inside_tag "title" phrase body
     \/ inside_tag "h1" phrase body
     \/ (str_in phrase (take 5000 body) = true
         /\ str_in "<h1 class" body = true)).

Definition soft_404_message (phrase : string) : string :=
  "Soft 404 detected (page contains '" ++ phrase ++ "')".

Lemma soft_404_hit_anchored (phrase body : string) :
  soft_404_hit phrase body = true <-> anchored phrase body.
Proof.
  unfold soft_404_hit, anchored.
  rewrite andb_true_iff, !orb_true_iff, andb_true_iff. tauto.
Qed.

Lemma soft_404_scan_some patterns body phrase :
  soft_404_scan patterns body = Some phrase ->
  In phrase patterns /\ anchored phrase body.
Proof.
  induction patterns as [|p rest IH]; simpl; [discriminate|].
  destruct (soft_404_hit p body) eqn:E.
  - intros [= <-]. split; [now left | now apply soft_404_hit_anchored].
  - intros H. destruct (IH H). split; [now right | assumption].
Qed.

Lemma soft_404_scan_none patterns body :
  soft_404_scan patterns body = None <->
  forall phrase, In phrase patterns -> ~ anchored phrase body.
Proof.
  induction patterns as [|p rest IH]; simpl.
  - split; [intros _ ? [] | reflexivity].
  - destruct (soft_404_hit p body) eqn:E.
    + split; [discriminate|]. intros H. exfalso.
      apply (H p); [now left | now apply soft_404_hit_anchored].
    + rewrite IH. split.
      * intros H phrase [<- | Hin]; [|now apply H].
        rewrite <- soft_404_hit_anchored, E. discriminate.
      * intros H phrase Hin. apply H. now right.
Qed.

(** What [check_url] does with a response received on the first attempt. *)
Lemma check_url_response net url retries body :
  0 <= retries ->
  net url 0 = Response body ->
  check_url net url retries =
    match soft_404_scan soft_404_patterns body with
    | Some phrase =>
        mkRun (ret_soft_404 phrase) (false, soft_404_message phrase) [EvRequest 0]
    | None => mkRun ret_ok (true, "") [EvRequest 0]
    end.
Proof.
  intros Hr Hnet.
  destruct (soft_404_scan soft_404_patterns body) as [phrase|] eqn:E.
  - apply (first_attempt_decides net url retries (ret_soft_404 phrase) Hr).
    intros rest. cbn [attempt_loop]. now rewrite Hnet, E.
  - apply (first_attempt_decides net url retries ret_ok Hr).
    intros rest. cbn [attempt_loop]. now rewrite Hnet, E.
Qed.

(** C1, as amended.  For a response body received on the first attempt,
    [check_url] returns invalid with the message
    "Soft 404 detected (page contains '<phrase>')" for a listed phrase
    exactly when some listed phrase occurs in the body and the body holds
    that phrase right after an opening [<title>], right after an opening
    [<h1>], or within its first 5000 characters while it also holds
    [<h1 class]; otherwise it returns valid.  A body containing
    [<title>Page Not Found</title>] is invalid; a body in which no listed
    phrase follows [<title>] or [<h1>] or occurs in the first 5000
    characters is valid. *)
Theorem check_url_soft_404 net url retries body :
  0 <= retries ->
  net url 0 = Response body ->
  let r := check_url net url retries in
  ((exists phrase, In phrase soft_404_patterns /\ anchored phrase body) ->
   exists phrase, In phrase soft_404_patterns /\ anchored phrase body /\
                  value r = (false, soft_404_message phrase))
  /\ ((forall phrase, In phrase soft_404_patterns -> ~ anchored phrase body) ->
      value r = (true, ""))
  /\ (str_in "<title>Page Not Found</title>" body = true ->
      value r = (false, "Soft 404 detected (page contains 'Page Not Found')"))
  /\ ((forall phrase, In phrase soft_404_patterns ->
         str_in ("<title>" ++ phrase) body = false
         /\ str_in ("<h1>" ++ phrase) body = false
         /\ str_in phrase (take 5000 body) = false) ->
      value r = (true, "")).
Proof.
  intros Hr Hnet r. subst r. rewrite (check_url_response _ _ _ _ Hr Hnet).
  assert (Hvalid : (forall phrase, In phrase soft_404_patterns ->
                      ~ anchored phrase body) ->
                   value match soft_404_scan soft_404_patterns body with
                         | Some phrase =>
                             mkRun (ret_soft_404 phrase)
                                   (false, soft_404_message phrase) [EvRequest 0]
                         | None => mkRun ret_ok (true, "") [EvRequest 0]
                         end = (true, "")).
  { intros H. apply soft_404_scan_none in H. now rewrite H. }
  split; [|split; [exact Hvalid|split]].
  - intros [phrase [Hin Hanch]].
    destruct (soft_404_scan soft_404_patterns body) as [p|] eqn:E.
    + destruct (soft_404_scan_some _ _ _ E) as [Hp Ha]. now exists p.
    + exfalso. exact (proj1 (soft_404_scan_none _ _) E phrase Hin Hanch).
  - intros Ht.
    assert (Hhit : soft_404_hit "Page Not Found" body = true).
    { apply soft_404_hit_anchored. split.
      - apply (str_in_append_r "<title>" "Page Not Found").
        now apply (str_in_append_l "<title>Page Not Found" "</title>").
      - left. now apply (str_in_append_l "<title>Page Not Found" "</title>"). }
    unfold soft_404_patterns. cbn [soft_404_scan]. rewrite Hhit. reflexivity.
  - intros H. apply Hvalid. intros phrase Hin [_ [Ha | [Ha | [_ Ha]]]];
      destruct (H phrase Hin) as [H1 [H2 H3]]; congruence.
Qed.

Definition net_title_page_not_found : string -> Z -> fetch_outcome :=
  fun _ _ => Response "<html><head><title>Page Not Found</title></head></html>".

Lemma check_url_soft_404_witness :
  0 <= 2 /\
  value (check_url net_title_page_not_found "https://a.test/" 2)
    = (false, "Soft 404 detected (page contains 'Page Not Found')").
Proof.
  split; [lia|].
  apply (check_url_soft_404 net_title_page_not_found "https://a.test/" 2
           "<html><head><title>Page Not Found</title></head></html>");
    [lia | reflexivity | vm_compute; reflexivity].
Defined.

(** C1 as the specification words it fails on a title that holds the phrase
    after other text: the phrase lies inside the [<title>] element, and
    [check_url] returns valid. *)
Lemma soft_404_inside_title_not_detected :
  let body := "<title>Error 404: Page Not Found</title>" in
  soft_404_as_specified body
  /\ value (check_url (fun _ _ => Response body) "https://a.test/" 2) = (true, "").
Proof.
  split; [|vm_compute; reflexivity].
  exists "Page Not Found". split; [now left|]. split; [reflexivity|].
  left. exists "", "Error 404: ", "", "". split; reflexivity.
Qed.

(** A listed phrase that occurs only past the first 5000 characters, away
    from any [<title>] or [<h1>], is not a soft 404, even on a page with an
    [<h1 class] heading; within the first 5000 characters of such a page it
    is. *)
Fixpoint filler (n : nat) : string :=
  match n with
  | O => ""
  | S n' => String "x" (filler n')
  end.

Definition page_with_footer : string :=
  "<h1 class='t'>Transit</h1>" ++ filler 5000 ++ "<footer>Page Not Found</footer>".

Definition page_with_notice : string :=
  "<h1 class='t'>Oops</h1><p>Nothing was found</p>" ++ filler 5000.

Example footer_phrase_is_valid :
  value (check_url (fun _ _ => Response page_with_footer) "https://a.test/" 2)
  = (true, "").
Proof. vm_compute. reflexivity. Qed.

Example early_phrase_is_soft_404 :
  value (check_url (fun _ _ => Response page_with_notice) "https://a.test/" 2)
  = (false, "Soft 404 detected (page contains 'Nothing was found')").
Proof. vm_compute. reflexivity. Qed.

End CheckUrlSpec.

Module RetrySpec.

Import LinkChecker CheckUrlFacts.

(** C2.  With a retry budget [retries >= 0] and every attempt answered by
    the same status 406, 429 or 503, [check_url] makes the attempts
    [0 .. retries], sleeps [2 ^ attempt] seconds after each attempt but the
    last (1, 2, 4, ... seconds), and returns invalid with
    "HTTP {code} (after {retries + 1} attempts)". *)
Theorem check_url_retry_exhausted net url retries code :
  0 <= retries ->
  code = 406 \/ code = 429 \/ code = 503 ->
  (forall attempt, 0 <= attempt <= retries -> net url attempt = HTTPError code) ->
  let r := check_url net url retries in
  trace r = (flat_map (fun a => [EvRequest a; EvSleep (2 ^ a)]) (range retries)
               ++ [EvRequest retries])%list
  /\ requests (trace r) = range (retries + 1)
  /\ Z.of_nat (length (requests (trace r))) = retries + 1
  /\ sleeps (trace r) = map (fun a => 2 ^ a) (range retries)
  /\ Z.of_nat (length (sleeps (trace r))) = retries
  /\ value r = (false, "HTTP " ++ str_of_int code ++ " (after "
                         ++ str_of_int (retries + 1) ++ " attempts)").
Proof.
  intros Hr Hcode Hnet r. subst r. unfold check_url.
  rewrite (range_snoc retries Hr).
  rewrite (attempt_loop_all_retryable (net url) retries code (range retries)).
  - cbn [trace value returned].
    rewrite requests_retry_trace, sleeps_retry_trace.
    rewrite length_app, length_map, !length_range. cbn [length].
    repeat split; lia.

  - now apply retryable_iff.
  - intros a Ha. apply in_range in Ha. lia.
  - intros a Ha. apply Hnet. apply in_app_or in Ha as [Ha | [<- | []]].
    + apply in_range in Ha. lia.
    + lia.
Qed.

Definition net_always_429 : string -> Z -> fetch_outcome :=
  fun _ _ => HTTPError 429.

Lemma check_url_retry_exhausted_witness :
  let r := check_url net_always_429 "https://a.test/" 2 in
  trace r = [EvRequest 0; EvSleep 1; EvRequest 1; EvSleep 2; EvRequest 2]
  /\ sleeps (trace r) = [1; 2]
  /\ value r = (false, "HTTP 429 (after 3 attempts)").
Proof.
  assert (H02 : 0 <= 2) by lia.
  destruct (check_url_retry_exhausted net_always_429 "https://a.test/" 2 429
              H02 (or_intror (or_introl eq_refl)) (fun _ _ => eq_refl))
    as [Htr [_ [_ [Hsl [_ Hv]]]]].
  intros r. split; [exact Htr | split; [exact Hsl | exact Hv]].
Defined.

(** C3.  Outcomes that are not retried are decided by the first attempt,
    with no sleep: 404 gives invalid "HTTP 404 Not Found", 403 gives valid,
    a status outside 403, 404, 406, 429, 503 gives invalid "HTTP {code}",
    and an unexpected exception gives invalid "Error: ...", whatever the
    retry budget. *)
Theorem check_url_no_retry net url retries :
  0 <= retries ->
  let r := check_url net url retries in
  (net url 0 = HTTPError 404 ->
   value r = (false, "HTTP 404 Not Found") /\ trace r = [EvRequest 0])
  /\ (net url 0 = HTTPError 403 ->
      value r = (true, "") /\ trace r = [EvRequest 0])
  /\ (forall code,
        code <> 403 -> code <> 404 -> code <> 406 -> code <> 429 -> code <> 503 ->
        net url 0 = HTTPError code ->
        value r = (false, "HTTP " ++ str_of_int code) /\ trace r = [EvRequest 0])
  /\ (forall msg,
        net url 0 = OtherException msg ->
        value r = (false, "Error: " ++ msg) /\ trace r = [EvRequest 0]).
Proof.
  intros Hr r. subst r. repeat split.
  1,2: rewrite (first_attempt_decides net url retries ret_http_404 Hr);
       [reflexivity | intros rest; cbn [attempt_loop]; now rewrite H].
  1,2: rewrite (first_attempt_decides net url retries ret_http_403 Hr);
       [reflexivity | intros rest; cbn [attempt_loop]; now rewrite H].
  1,2: rewrite (first_attempt_decides net url retries (ret_http_other code) Hr);
       [reflexivity | intros rest; cbn [attempt_loop]; rewrite H4].
  3,4: rewrite (first_attempt_decides net url retries (ret_exception msg) Hr);
       [reflexivity | intros rest; cbn [attempt_loop]; now rewrite H].
  all: assert ((code =? 404) = false) as -> by (apply Z.eqb_neq; lia);
       assert ((code =? 403) = false) as -> by (apply Z.eqb_neq; lia);
       assert (retryable code = false) as ->; [|reflexivity];
       apply not_true_is_false; rewrite retryable_iff; lia.
Qed.

Definition net_always_404 : string -> Z -> fetch_outcome :=
  fun _ _ => HTTPError 404.

Lemma check_url_no_retry_witness :
  let r := check_url net_always_404 "https://a.test/" 2 in
  value r = (false, "HTTP 404 Not Found") /\ trace r = [EvRequest 0].
Proof.
  apply (check_url_no_retry net_always_404 "https://a.test/" 2);
    [lia | reflexivity].
Defined.

(** C10.  With a retry budget [retries >= 0], whatever the attempts meet,
    [check_url] leaves through a [return] inside the loop; the
    "Max retries exceeded" return after the loop is not reached. *)
Theorem check_url_fallback_unreachable net url retries :
  0 <= retries ->
  site (check_url net url retries) <> ret_max_retries.
Proof.
  intros Hr. unfold check_url. rewrite (range_snoc retries Hr).
  pose proof (attempt_loop_returns_inside (net url) retries (range retries)) as H.
  destruct (attempt_loop (net url) retries (range retries ++ [retries]))
    as [r tr].
  cbn [site fst] in *. apply H.
  intros a Ha. apply in_range in Ha. lia.
Qed.

Lemma check_url_fallback_unreachable_witness :
  site (check_url net_always_429 "https://a.test/" 0) <> ret_max_retries.
Proof.
  apply (check_url_fallback_unreachable net_always_429 "https://a.test/" 0).
  lia.
Defined.

(** With a negative budget the loop body never runs and the fallback is
    what [check_url] returns. *)
Lemma check_url_negative_budget net url retries :
  retries < 0 ->
  check_url net url retries = mkRun ret_max_retries (false, "Max retries exceeded") [].
Proof.
  intros Hr. unfold check_url. rewrite range_nonpos by lia. reflexivity.
Qed.

End RetrySpec.

(** ** URL extraction *)

Module ExtractionSpec.

Import LinkChecker.

Lemma skip_loop_iff domains url :
  skip_loop domains url = true <->
  exists domain, In domain domains /\ str_in domain url = true.
Proof.
  induction domains as [|d rest IH]; simpl.
  - split; [discriminate | intros [? [[] _]]].
  - destruct (str_in d url) eqn:E.
    + split; [intros _; exists d; auto | reflexivity].
    + rewrite IH. split.
      * intros [domain [Hin H]]. exists domain. auto.
      * intros [domain [[<- | Hin] H]]; [congruence | now exists domain].
Qed.

Lemma should_skip_url_iff url :
  should_skip_url url = true <->
  exists domain a b, In domain SKIP_DOMAINS /\ url = a ++ domain ++ b.
Proof.
  unfold should_skip_url. rewrite skip_loop_iff. split.
  - intros [domain [Hin H]]. apply str_in_iff in H as [a [b ->]]. now exists domain, a, b.
  - intros [domain [a [b [Hin ->]]]]. exists domain. split; [assumption|].
    apply str_in_iff. now exists a, b.
Qed.

(** [url] contains a skip-listed domain somewhere in its text. *)
Definition skip_listed (url : string) : Prop :=
  exists domain before after,
    In domain SKIP_DOMAINS /\ url = before ++ domain ++ after.

Lemma line_file_urls_keeps line_num markdown yaml bare url :
  In (line_num, url) (line_file_urls line_num markdown yaml bare) <->
  In url (urls_found_on_line markdown yaml bare) /\ ~ skip_listed url.
Proof.
  unfold line_file_urls, skip_listed. rewrite in_map_iff. split.
  - intros [u [[= <-] Hu]]. apply filter_In in Hu as [Hin Hkeep].
    split; [assumption|]. rewrite <- should_skip_url_iff.
    now destruct (should_skip_url u).
  - intros [Hin Hno]. exists url. split; [reflexivity|].
    apply filter_In. split; [assumption|].
    rewrite <- should_skip_url_iff in Hno. now destruct (should_skip_url url).
Qed.

Lemma line_file_urls_line_num line_num markdown yaml bare n url :
  In (n, url) (line_file_urls line_num markdown yaml bare) -> n = line_num.
Proof.
  unfold line_file_urls. rewrite in_map_iff. now intros [u [[= <- _] _]].
Qed.

Lemma file_urls_not_skip_listed line_num lines n url :
  In (n, url) (file_urls line_num lines) -> ~ skip_listed url.
Proof.
  revert line_num. induction lines as [|line rest IH]; intros line_num; [intros []|].
  cbn [file_urls]. intros H. apply in_app_or in H as [H | H].
  - unfold urls_on_line in H.
    pose proof (line_file_urls_line_num _ _ _ _ _ _ H) as ->.
    now apply line_file_urls_keeps in H.
  - exact (IH _ H).
Qed.

Lemma find_external_urls_in files rel_path urls :
  In (rel_path, urls) (find_external_urls files) ->
  urls <> [] /\ exists lines, In (rel_path, lines) files /\ urls = file_urls 1 lines.
Proof.
  induction files as [|[path lines] rest IH]; [intros []|].
  cbn [find_external_urls].
  destruct (file_urls 1 lines) as [|u us] eqn:E.
  - intros H. destruct (IH H) as [Hne [ls [Hin Hu]]].
    split; [exact Hne|]. exists ls. split; [now right | exact Hu].
  - intros [[= <- <-] | H].
    + split; [discriminate|]. exists lines. split; [now left | now rewrite E].
    + destruct (IH H) as [Hne [ls [Hin Hu]]].
      split; [exact Hne|]. exists ls. split; [now right | exact Hu].
Qed.

(** C7.  Of the URLs found on a line, those that contain a skip-listed
    domain anywhere in their text are dropped and all others are kept; so
    no URL in the result of [find_external_urls] contains one.  A URL whose
    host merely contains a listed domain ([x.com] inside [www.netflix.com])
    is dropped too. *)
Theorem skip_listed_urls_discarded :
  (forall line_num markdown yaml bare url,
      In (line_num, url) (line_file_urls line_num markdown yaml bare) <->
      In url (urls_found_on_line markdown yaml bare) /\ ~ skip_listed url)
  /\ (forall line_num line url,
         In (line_num, url) (urls_on_line line_num line) <->
         In url (urls_found_on_line (markdown_link line) (yaml_url line)
                                    (bare_url line))
         /\ ~ skip_listed url)
  /\ (forall files rel_path urls line_num url,
         In (rel_path, urls) (find_external_urls files) ->
         In (line_num, url) urls -> ~ skip_listed url)
  /\ should_skip_url "https://www.netflix.com/browse" = true
  /\ urls_on_line 7 "Watch https://www.netflix.com/browse, read https://www.seattle.gov/transit."
     = [(7, "https://www.seattle.gov/transit")].
Proof.
  split; [|split; [|split; [|split; reflexivity]]].
  - apply line_file_urls_keeps.
  - intros line_num line url. apply line_file_urls_keeps.
  - intros files rel_path urls line_num url Hfile Hin.
    apply find_external_urls_in in Hfile as [_ [lines [_ ->]]].
    exact (file_urls_not_skip_listed _ _ _ _ Hin).
Qed.

Definition netflix_and_city : list (string * list string) :=
  [ ("content/guide.md",
     [ "# Links";
       "Watch https://www.netflix.com/browse, read https://www.seattle.gov/transit." ]) ].

Lemma skip_listed_urls_discarded_witness :
  find_external_urls netflix_and_city
    = [("content/guide.md", [(2, "https://www.seattle.gov/transit")])]
  /\ ~ skip_listed "https://www.seattle.gov/transit".
Proof.
  split; [reflexivity|].
  apply (proj1 (proj2 (proj2 skip_listed_urls_discarded))
           netflix_and_city "content/guide.md"
           [(2, "https://www.seattle.gov/transit")] 2);
    left; reflexivity.
Defined.

(** [url] is a proper prefix of [found]. *)
Definition proper_prefix (url found : string) : Prop :=
  exists rest, rest <> "" /\ found = url ++ rest.

Lemma append_empty_r (s : string) : s ++ "" = s.
Proof. induction s; simpl; congruence. Qed.

Lemma append_cancel_l (s r : string) : s = s ++ r -> r = "".
Proof.
  induction s as [|a s IH]; simpl; [congruence|].
  intros [= H]. auto.
Qed.

Lemma is_strict_prefix_of_found_iff url urls_found :
  is_strict_prefix_of_found url urls_found = true <->
  exists found, In found urls_found /\ proper_prefix url found.
Proof.
  unfold is_strict_prefix_of_found, proper_prefix. rewrite existsb_exists.
  split; intros [found [Hin H]]; exists found; (split; [assumption|]).
  - apply andb_true_iff in H as [Hp Hne]. apply startswith_iff in Hp as [rest ->].
    exists rest. split; [|reflexivity]. intros ->.
    rewrite append_empty_r, String.eqb_refl in Hne. discriminate.
  - destruct H as [rest [Hne ->]]. apply andb_true_iff. split.
    + apply startswith_iff. now exists rest.
    + apply negb_true_iff, String.eqb_neq. intros H.
      apply Hne. symmetry in H. exact (append_cancel_l _ _ H).
Qed.

(** Every URL the bare loop appends has no proper extension among the URLs
    that stand before it. *)
Lemma bare_loop_appends bare urls_found :
  exists added,
    bare_loop bare urls_found = (urls_found ++ added)%list
    /\ forall before url after,
         added = (before ++ url :: after)%list ->
         forall found, In found (urls_found ++ before)%list ->
                       ~ proper_prefix url found.
Proof.
  revert urls_found. induction bare as [|m rest IH]; intros urls_found.
  - exists []. split; [now rewrite app_nil_r|].
    intros [|? ?] ? ? H; discriminate.
  - cbn [bare_loop].
    destruct (is_strict_prefix_of_found (trim m) urls_found) eqn:Ep; cbn [negb].
    + apply IH.
    + destruct (already_found (trim m) urls_found) eqn:Ea; cbn [negb].
      * apply IH.
      * destruct (IH (urls_found ++ [trim m])%list) as [added [Heq Hadded]].
        exists (trim m :: added). split.
        -- rewrite Heq, <- app_assoc. reflexivity.
        -- intros before url after Hsplit found Hin.
           destruct before as [|b before]; cbn [app] in Hsplit.
           ++ injection Hsplit as <- _. rewrite app_nil_r in Hin.
              intros Hpp.
              assert (is_strict_prefix_of_found (trim m) urls_found = true)
                by (apply is_strict_prefix_of_found_iff; now exists found).
              congruence.
           ++ injection Hsplit as <- ->.
              apply (Hadded before url after eq_refl).
              rewrite <- app_assoc. exact Hin.
Qed.

Lemma urls_found_on_line_split markdown yaml bare :
  exists added,
    urls_found_on_line markdown yaml bare
      = (map trim markdown ++ map trim yaml ++ added)%list
    /\ (forall url, In url added ->
          forall captured, In captured markdown ->
                           ~ proper_prefix url (trim captured))
    /\ (forall before url after,
          added = (before ++ url :: after)%list ->
          forall found,
            In found (map trim markdown ++ map trim yaml ++ before)%list ->
            ~ proper_prefix url found)
    /\ (forall line_num,
          map snd (line_file_urls line_num markdown yaml bare)
          = (filter (fun url => negb (should_skip_url url))
                    (map trim markdown ++ map trim yaml)
               ++ filter (fun url => negb (should_skip_url url)) added)%list).
Proof.
  unfold urls_found_on_line.
  destruct (bare_loop_appends bare (map trim markdown ++ map trim yaml)%list)
    as [added [Heq Hadded]].
  exists added. split; [now rewrite Heq, <- app_assoc|].
  split; [|split].
  - intros url Hin captured Hc.
    apply in_split in Hin as [before [after ->]].
    apply (Hadded before url after eq_refl).
    apply in_or_app. left. apply in_or_app. left. now apply in_map.
  - intros before url after Hsplit found Hin.
    apply (Hadded before url after Hsplit). now rewrite <- app_assoc.
  - intros line_num. unfold line_file_urls, urls_found_on_line.
    rewrite map_map. cbn [snd]. now rewrite map_id, Heq, filter_app.
Qed.

(** C8.  The URLs found on a line are the markdown captures, then the YAML
    captures, then what the bare rule adds; no URL the bare rule adds is a
    proper prefix of a URL found before it on the line, a markdown capture
    in particular.  The line's result list keeps the URLs found in their
    order, so there too no entry of the bare rule is a proper prefix of an
    entry before it.  An unquoted YAML URL with parentheses, which the bare
    pattern sees cut at the closing one, is listed once. *)
Theorem bare_rule_adds_no_prefix :
  (forall line, exists added,
      let markdown := map trim (markdown_link line) in
      let yaml := map trim (yaml_url line) in
      let keep := filter (fun url => negb (should_skip_url url)) in
      urls_found_on_line (markdown_link line) (yaml_url line) (bare_url line)
        = (markdown ++ yaml ++ added)%list
      /\ (forall url, In url added ->
            forall captured, In captured markdown -> ~ proper_prefix url captured)
      /\ (forall before url after,
            added = (before ++ url :: after)%list ->
            forall found, In found (markdown ++ yaml ++ before)%list ->
                          ~ proper_prefix url found)
      /\ (forall line_num,
            map snd (urls_on_line line_num line)
            = (keep (markdown ++ yaml) ++ keep added)%list)
      /\ (forall before url after,
            keep added = (before ++ url :: after)%list ->
            forall found, In found (keep (markdown ++ yaml) ++ before)%list ->
                          ~ proper_prefix url found))
  /\ bare_url "url: https://www.seattle.gov/plan_(2035)" = ["https://www.seattle.gov/plan_(2035"]
  /\ urls_on_line 3 "url: https://www.seattle.gov/plan_(2035)"
     = [(3, "https://www.seattle.gov/plan_(2035)")].
Proof.
  split; [|split; reflexivity].
  intros line.
  destruct (urls_found_on_line_split (markdown_link line) (yaml_url line)
                                     (bare_url line))
    as [added [Heq [Hmd [Hbefore Hres]]]].
  exists added. cbn zeta. split; [exact Heq|]. split; [|split; [|split]].
  - intros url Hin captured Hc. apply in_map_iff in Hc as [m [<- Hm]].
    now apply Hmd.
  - exact Hbefore.
  - intros line_num. apply Hres.
  - intros before url after Hsplit found Hin.
    apply filter_split in Hsplit as [before' [after' [Hadded Hb]]].
    apply (Hbefore before' url after' Hadded).
    rewrite app_assoc. apply in_or_app.
    apply in_app_or in Hin as [Hin | Hin].
    + left. now apply filter_In in Hin as [Hin _].
    + right. rewrite <- Hb in Hin. now apply filter_In in Hin as [Hin _].
Qed.

Definition plan_line : string :=
  "[Plan](https://www.seattle.gov/plan_(2035)), or https://www.seattle.gov/plan.".

Lemma bare_rule_adds_no_prefix_witness :
  urls_on_line 5 plan_line = [(5, "https://www.seattle.gov/plan_(2035)")]
  /\ exists added,
       urls_found_on_line (markdown_link plan_line) (yaml_url plan_line)
                          (bare_url plan_line)
       = ("https://www.seattle.gov/plan_(2035)" :: added)%list
       /\ forall url, In url added ->
            ~ proper_prefix url "https://www.seattle.gov/plan_(2035)".
Proof.
  split; [reflexivity|].
  destruct (proj1 bare_rule_adds_no_prefix plan_line)
    as [added [Heq [Hmd _]]].
  exists added. split; [exact Heq|].
  intros url Hin. apply (Hmd url Hin). left. reflexivity.
Defined.

End ExtractionSpec.

(** ** Exit status of the link checker *)

Module ExitSpec.

Import LinkChecker LinkMain.

Lemma collect_broken_nil check completed :
  collect_broken check completed = [] <->
  forall url, In url (map fst completed) -> fst (check url) = true.
Proof.
  induction completed as [|[u locs] rest IH]; cbn [collect_broken map fst].
  - split; [intros _ ? [] | reflexivity].
  - destruct (check u) as [is_valid error] eqn:E.
    destruct is_valid; cbn [negb].
    + rewrite IH. split.
      * intros H url [<- | Hin]; [now rewrite E | now apply H].
      * intros H url Hin. apply H. now right.
    + split; [discriminate|]. intros H.
      specialize (H u (or_introl eq_refl)). rewrite E in H. discriminate.
Qed.

(** C9.  The link checker exits with status 0 when no unique URL was found,
    with status 0 when URLs were found and every check is valid, and with
    status 1 when some check is invalid, in whatever order the pool hands
    the checks back. *)
Theorem main_exit_status url_map net as_completed :
  (forall urls, Permutation (as_completed urls) urls) ->
  let unique_urls := deduplicate url_map in
  let valid url := fst (value (check_url net url 2)) in
  (unique_urls = [] -> main url_map net as_completed = 0)
  /\ (unique_urls <> [] ->
      (forall url, In url (map fst unique_urls) -> valid url = true) ->
      main url_map net as_completed = 0)
  /\ ((exists url, In url (map fst unique_urls) /\ valid url = false) ->
      main url_map net as_completed = 1).
Proof.
  intros Hperm unique_urls valid.
  assert (Hin : forall url, In url (map fst (as_completed unique_urls)) <->
                            In url (map fst unique_urls)).
  { intros url. split; apply Permutation_in, Permutation_map;
      [apply Hperm | apply Permutation_sym, Hperm]. }
  assert (Hall : (forall url, In url (map fst unique_urls) -> valid url = true) ->
                 main url_map net as_completed = 0).
  { intros Hvalid. unfold main. destruct url_map as [|f rest]; [reflexivity|].
    fold unique_urls.
    assert (collect_broken (fun url => value (check_url net url 2))
                           (as_completed unique_urls) = []) as ->; [|reflexivity].
    apply collect_broken_nil. intros url Hu. apply Hvalid, Hin, Hu. }
  split; [|split].
  - intros Hempty. apply Hall. rewrite Hempty. intros ? [].
  - intros _. exact Hall.
  - intros [url [Hu Hbad]]. unfold main.
    destruct url_map as [|f rest]; [destruct Hu|]. fold unique_urls.
    destruct (collect_broken (fun url => value (check_url net url 2))
                             (as_completed unique_urls)) eqn:E; [|reflexivity].
    exfalso. pose proof (proj1 (collect_broken_nil _ _) E url) as H.
    cbn beta in H. fold (valid url) in H.
    rewrite (H (proj2 (Hin url) Hu)) in Hbad. discriminate.
Qed.

Definition net_one_broken : string -> Z -> fetch_outcome :=
  fun url _ =>
    if String.eqb url "https://gone.test/" then HTTPError 404
    else Response "<html><title>Transit</title></html>".

Definition two_files : url_map_t :=
  [ ("content/a.md", [(3, "https://ok.test/"); (9, "https://gone.test/")]);
    ("data/b.yaml", [(1, "https://ok.test/")]) ].

Lemma main_exit_status_witness :
  main two_files net_one_broken (fun urls => urls) = 1
  /\ main [("content/a.md", [(3, "https://ok.test/")])] net_one_broken
          (fun urls => rev urls) = 0.
Proof.
  split.
  - apply (main_exit_status two_files net_one_broken (fun urls => urls)
             (fun urls => Permutation_refl urls)).
    exists "https://gone.test/". split; [right; left; reflexivity | reflexivity].
  - apply (main_exit_status [("content/a.md", [(3, "https://ok.test/")])]
             net_one_broken (fun urls => rev urls)
             (fun urls => Permutation_sym (Permutation_rev urls))).
    + discriminate.
    + intros url [<- | []]. reflexivity.
Defined.

End ExitSpec.

(** ** Timeline validation *)

Module TimelineFacts.

Import Timeline.

(** The [year] an entry carries, when the entry is a mapping. *)
Definition entry_year (entry : yaml) : option yaml :=
  match entry with
  | YMap items => lookup "year" items
  | _ => None
  end.

Definition is_mapping (entry : yaml) : Prop :=
  exists items, entry = YMap items.

(** A mapping whose [year] passes [isinstance(_, int)]. *)
Definition has_int_instance_year (entry : yaml) : Prop :=
  is_mapping entry /\
  exists year, entry_year entry = Some year /\ isinstance_int year = true.


(** The first loop only ever extends [errors], and when it adds nothing
    every entry is a mapping with an [int] instance under [year]. *)
Lemma check_year_fields_grows i entries errors out :
  check_year_fields i entries errors = Return out ->
  (length errors <= length out)%nat
  /\ (length out = length errors -> Forall has_int_instance_year entries).
Proof.
  revert i errors. induction entries as [|entry rest IH]; intros i errors.
  - intros [= <-]. split; [lia | constructor].
  - cbn [check_year_fields].
    destruct (contains "year" entry) as [has_year|e] eqn:Ec; cbn [bind];
      [|discriminate].
    destruct has_year; cbn [negb].
    + destruct (getitem "year" entry) as [year|e] eqn:Eg; cbn [bind];
        [|discriminate].
      destruct (isinstance_int year) eqn:Ei; cbn [negb].
      * intros H. destruct (IH _ _ H) as [Hle Hclean]. split; [exact Hle|].
        intros Hlen. constructor; [|now apply Hclean].
        destruct entry; try discriminate. cbn [getitem] in Eg.
        destruct (lookup "year" items) as [v|] eqn:El; [|discriminate].
        injection Eg as ->. split; [now eexists|].
        exists year. now split.
      * intros H. destruct (IH _ _ H) as [Hle _].
        rewrite length_app in Hle. cbn [length] in Hle. split; lia.
    + intros H. destruct (IH _ _ H) as [Hle _].
      rewrite length_app in Hle. cbn [length] in Hle. split; lia.
Qed.

(** Whenever the script reaches the ordering check, every value it compares
    is an [int] instance. *)
Lemma check_year_fields_clean entries :
  check_year_fields 0 entries [] = Return [] ->
  Forall has_int_instance_year entries.
Proof.
  intros H. now apply (check_year_fields_grows _ _ _ _ H).
Qed.

(** The error, if any, that the first loop records for a mapping entry. *)
Definition structural_error (i : Z) (entry : yaml) : list string :=
  match entry_year entry with
  | None => [missing_year_error i]
  | Some year =>
      if isinstance_int year then [] else [year_type_error i year]
  end.

Fixpoint structural_errors (i : Z) (entries : list yaml) : list string :=
  match entries with
  | [] => []
  | entry :: rest => (structural_error i entry ++ structural_errors (i + 1) rest)%list
  end.

(** An entry that lacks [year] or carries one that is not an [int]
    instance. *)
Definition offending (entry : yaml) : bool :=
  match entry_year entry with
  | None => true
  | Some year => negb (isinstance_int year)
  end.

Lemma check_year_fields_mappings i entries errors :
  Forall is_mapping entries ->
  check_year_fields i entries errors
  = Return (errors ++ structural_errors i entries)%list.
Proof.
  intros Hmap. revert i errors.
  induction Hmap as [|entry rest [items ->] _ IH]; intros i errors.
  - cbn. now rewrite app_nil_r.
  - cbn [check_year_fields structural_errors contains getitem bind].
    unfold structural_error. cbn [entry_year].
    destruct (lookup "year" items) as [year|]; cbn [negb bind].
    + destruct (isinstance_int year); cbn [negb].
      * apply IH.
      * rewrite IH, <- app_assoc. reflexivity.
    + rewrite IH, <- app_assoc. reflexivity.
Qed.

Lemma structural_errors_length i entries :
  length (structural_errors i entries) = length (filter offending entries).
Proof.
  revert i. induction entries as [|entry rest IH]; intros i; [reflexivity|].
  cbn [structural_errors filter]. rewrite length_app, IH.
  unfold structural_error, offending.
  destruct (entry_year entry) as [year|]; [|reflexivity].
  destruct (isinstance_int year); reflexivity.
Qed.

Lemma structural_errors_nil i entries :
  Forall has_int_instance_year entries -> structural_errors i entries = [].
Proof.
  intros H. revert i.
  induction H as [|entry rest [_ [year [Hy Hi]]] _ IH]; intros i; [reflexivity|].
  cbn [structural_errors]. unfold structural_error. now rewrite Hy, Hi, IH.
Qed.

Lemma structural_errors_entry i entries error :
  In error (structural_errors i entries) ->
  exists j, i <= j /\
    (error = missing_year_error j \/ exists year, error = year_type_error j year).
Proof.
  revert i. induction entries as [|entry rest IH]; intros i; [intros []|].
  cbn [structural_errors]. intros H. apply in_app_or in H as [H | H].
  - exists i. split; [lia|]. unfold structural_error in H.
    destruct (entry_year entry) as [year|].
    + destruct (isinstance_int year); [destruct H|].
      destruct H as [<- | []]. right. now exists year.
    + destruct H as [<- | []]. now left.
  - destruct (IH _ H) as [j [Hj Herr]]. exists j. split; [lia | exact Herr].
Qed.

(** The year and the title the ordering check reads at an index. *)
Definition raw_year (entry : yaml) : yaml :=
  match entry_year entry with
  | Some year => year
  | None => YNull
  end.

Definition year_at (entries : list yaml) (i : Z) : yaml :=
  match nth_error entries (Z.to_nat i) with
  | Some entry => raw_year entry
  | None => YNull
  end.

Definition year_of (entries : list yaml) (i : Z) : Z :=
  match int_value (year_at entries i) with
  | Some n => n
  | None => 0
  end.

Definition title_of (entries : list yaml) (i : Z) : yaml :=
  match nth_error entries (Z.to_nat i) with
  | Some (YMap items) =>
      match lookup "title" items with
      | Some title => title
      | None => YStr "Unknown"
      end
  | _ => YStr "Unknown"
  end.

Lemma collect_years_clean entries :
  Forall has_int_instance_year entries ->
  collect_years entries = Return (map raw_year entries).
Proof.
  induction 1 as [|entry rest [[items ->] [year [Hy _]]] _ IH]; [reflexivity|].
  cbn [collect_years getitem map]. unfold raw_year. cbn [entry_year] in *.
  rewrite Hy. cbn [bind]. now rewrite IH.
Qed.

Lemma index_in_range {A : Type} (xs : list A) (i : Z) :
  0 <= i < Z.of_nat (length xs) ->
  exists x, nth_error xs (Z.to_nat i) = Some x /\ index xs i = Return x.
Proof.
  intros Hi. unfold index.
  assert (Hneg : (i <? 0) = false) by (apply Z.ltb_ge; lia).
  cbv zeta. rewrite !Hneg.
  destruct (nth_error xs (Z.to_nat i)) as [x|] eqn:E.
  - now exists x.
  - apply nth_error_None in E. lia.
Qed.

End TimelineFacts.

Module TimelineSpec.

Import Timeline TimelineFacts.

Section WithFormatting.

Variable container_str : yaml -> string.

(** The error the ordering check records for the pair [(i, i + 1)]. *)
Definition violation (entries : list yaml) (i : Z) : string :=
  order_violation_error container_str
    (title_of entries i) (year_at entries i)
    (title_of entries (i + 1)) (year_at entries (i + 1)).

Definition out_of_order (entries : list yaml) (i : Z) : bool :=
  year_of entries i <? year_of entries (i + 1).

(** One error per adjacent pair whose earlier year is strictly less. *)
Definition order_errors (entries : list yaml) : list string :=
  map (violation entries)
      (filter (out_of_order entries) (range (Z.of_nat (length entries) - 1))).


Lemma int_instance_value year :
  isinstance_int year = true -> exists n, int_value year = Some n.
Proof. destruct year; try discriminate; intros _; eexists; reflexivity. Qed.

Lemma entry_at entries i :
  Forall has_int_instance_year entries ->
  0 <= i < Z.of_nat (length entries) ->
  exists items,
    nth_error entries (Z.to_nat i) = Some (YMap items)
    /\ index entries i = Return (YMap items)
    /\ index (map raw_year entries) i = Return (year_at entries i)
    /\ int_value (year_at entries i) = Some (year_of entries i).
Proof.
  intros Hall Hi.
  destruct (index_in_range entries i Hi) as [entry [Hnth Hidx]].
  pose proof (proj1 (Forall_forall _ _) Hall entry (nth_error_In _ _ Hnth))
    as [[items ->] [year [Hy Hinst]]].
  exists items. split; [exact Hnth|]. split; [exact Hidx|].
  unfold index, year_of, year_at.
  assert (Hneg : (i <? 0) = false) by (apply Z.ltb_ge; lia).
  cbv zeta. rewrite !Hneg, nth_error_map, Hnth. cbn [option_map].
  split; [reflexivity|].
  unfold raw_year. rewrite Hy.
  destruct (int_instance_value year Hinst) as [n ->]. reflexivity.
Qed.

Lemma check_order_int_instances entries indices errors :
  Forall has_int_instance_year entries ->
  (forall i, In i indices -> 0 <= i < Z.of_nat (length entries) - 1) ->
  check_order container_str entries (map raw_year entries) indices errors
  = Return (errors ++ map (violation entries)
                          (filter (out_of_order entries) indices))%list.
Proof.
  intros Hall. revert errors.
  induction indices as [|i rest IH]; intros errors Hidx.
  - cbn. now rewrite app_nil_r.
  - assert (Hi : 0 <= i < Z.of_nat (length entries) - 1)
      by (apply Hidx; now left).
    destruct (entry_at entries i Hall) as [items [Hn [He [Hy Hv]]]]; [lia|].
    destruct (entry_at entries (i + 1) Hall)
      as [items' [Hn' [He' [Hy' Hv']]]]; [lia|].
    cbn [check_order filter]. rewrite Hy, Hy'. cbn [bind]. unfold lt.
    rewrite Hv, Hv'. cbn [bind].
    fold (out_of_order entries i).
    destruct (out_of_order entries i).
    + rewrite He, He'. cbn [bind get].
      rewrite IH by (intros j Hj; apply Hidx; now right).
      cbn [map]. rewrite <- app_assoc. cbn [app].
      unfold violation at 2, title_of. now rewrite Hn, Hn'.
    + apply IH. intros j Hj. apply Hidx. now right.
Qed.

(** What [validate_timeline] returns on a non-empty sequence of mappings. *)
Lemma validate_mappings path entries :
  entries <> [] ->
  Forall is_mapping entries ->
  validate_timeline container_str path (Document (YSeq entries))
  = match structural_errors 0 entries with
    | [] => Return (is_empty (order_errors entries), order_errors entries)
    | errors => Return (false, errors)
    end.
Proof.
  intros Hne Hall. cbn [validate_timeline]. unfold validate_entries.
  assert (truthy (YSeq entries) = true) as ->
      by (destruct entries; [contradiction | reflexivity]).
  cbn [negb].
  pose proof (check_year_fields_mappings 0 entries [] Hall) as Hrun.
  cbn [app] in Hrun. rewrite Hrun. cbn [bind].
  destruct (structural_errors 0 entries) as [|error errors] eqn:E;
    [|reflexivity].
  cbn [is_empty negb].
  assert (Hinst : Forall has_int_instance_year entries)
    by (apply check_year_fields_clean; exact Hrun).
  rewrite collect_years_clean by exact Hinst. cbn [bind].
  rewrite length_map, check_order_int_instances;
    [reflexivity | exact Hinst | intros i Hi; apply in_range in Hi; lia].
Qed.

Lemma order_errors_nil entries :
  order_errors entries = [] <->
  forall i, 0 <= i < Z.of_nat (length entries) - 1 ->
            year_of entries i >= year_of entries (i + 1).
Proof.
  unfold order_errors. split.
  - intros H i Hi. apply map_eq_nil in H.
    pose proof (proj1 (filter_nil_iff _ _) H i (proj2 (in_range _ _) Hi)) as E.
    unfold out_of_order in E. apply Z.ltb_ge in E. lia.
  - intros H.
    assert (filter (out_of_order entries)
                   (range (Z.of_nat (length entries) - 1)) = []) as ->;
      [|reflexivity].
    apply filter_nil_iff. intros i Hi. apply in_range in Hi.
    unfold out_of_order. apply Z.ltb_ge. specialize (H i Hi). lia.
Qed.



Definition descending_pair : yaml :=
  YSeq [ YMap [(YStr "year", YInt 2021)]; YMap [(YStr "year", YInt 2020)] ].


(** X25.  What the first loop does on mappings, as the code has it: on a
    sequence of mappings in which some entry lacks [year] or carries a
    [year] that fails [isinstance(_, int)] (a value that is neither an
    integer nor a boolean), [validate_timeline] returns invalid with the
    structural errors of all such entries, one each, in order, and with no
    ordering error. *)
Theorem structural_errors_reported path entries :
  Forall is_mapping entries ->
  Exists (fun entry => offending entry = true) entries ->
  let errors := structural_errors 0 entries in
  validate_timeline container_str path (Document (YSeq entries))
  = Return (false, errors)
  /\ length errors = length (filter offending entries)
  /\ (forall error, In error errors ->
         exists j, 0 <= j /\
           (error = missing_year_error j
            \/ exists year, error = year_type_error j year))
  /\ (forall error, In error errors ->
         forall title year next_title next_year,
           error <> order_violation_error container_str
                      title year next_title next_year).
Proof.
  intros Hall Hoff errors.
  assert (Hlen : length errors = length (filter offending entries))
    by apply structural_errors_length.
  assert (Hentry : forall error, In error errors ->
            exists j, 0 <= j /\
              (error = missing_year_error j
               \/ exists year, error = year_type_error j year))
    by (intros error; apply structural_errors_entry).
  split; [|split; [exact Hlen|split; [exact Hentry|]]].
  - assert (Hne : entries <> []) by (destruct Hoff; discriminate).
    rewrite (validate_mappings path entries Hne Hall). fold errors.
    destruct errors as [|error rest]; [|reflexivity].
    apply Exists_exists in Hoff as [entry [Hin Ho]].
    assert (Hf : In entry (filter offending entries))
      by (apply filter_In; now split).
    destruct (filter offending entries); [destruct Hf | discriminate].
  - intros error Hin title year next_title next_year.
    destruct (Hentry error Hin) as [j [_ [-> | [y ->]]]]; discriminate.
Qed.

(** C4 does not hold of the code: an entry that is no mapping makes the
    first loop raise.  [[5]] and [[null]] raise at ['year' not in entry];
    a string entry that contains "year" raises at [entry['year']]. *)
Theorem non_mapping_entry_raises path :
  validate_timeline container_str path (Document (YSeq [YInt 5]))
  = Raise TypeError
  /\ validate_timeline container_str path (Document (YSeq [YNull]))
     = Raise TypeError
  /\ validate_timeline container_str path
       (Document (YSeq [YMap [(YStr "year", YInt 2021)]; YStr "year 2020"]))
     = Raise TypeError.
Proof. repeat split. Qed.

(** Once the file is loaded or one of the two caught exceptions is met,
    [validate_timeline] does return where every entry of the sequence is a
    mapping, and on documents that are no sequence. *)
Lemma validate_timeline_returns path file :
  (forall e, file <> LoadError e) ->
  (forall entries, file = Document (YSeq entries) -> Forall is_mapping entries) ->
  exists result, validate_timeline container_str path file = Return result.
Proof.
  intros Hload Hmap.
  destruct file as [| detail | document | e]; try (eexists; reflexivity);
    [|now destruct (Hload e)].
  destruct document as [| b | n | nonzero text | s | has_time text | data
                        | entries | members | items];
    try (unfold validate_timeline, validate_entries;
         match goal with |- context [truthy ?v] => destruct (truthy v) end;
         eexists; reflexivity).
  destruct entries as [|entry rest]; [eexists; reflexivity|].
  rewrite validate_mappings; [|discriminate | now apply Hmap].
  destruct (structural_errors 0 (entry :: rest)); eexists; reflexivity.
Qed.

End WithFormatting.

(** A rendering of container values for closed examples; none of the
    examples below formats one. *)
Definition no_container_str : yaml -> string := fun _ => "".



Lemma structural_errors_reported_witness :
  validate_timeline no_container_str "data/timeline.yaml"
    (Document (YSeq [ YMap [(YStr "year", YInt 1990)];
                      YMap [(YStr "title", YStr "Streetcar")];
                      YMap [(YStr "year", YStr "2001")];
                      YMap [(YStr "year", YInt 2020)] ]))
  = Return (false, [ "Entry 2 is missing 'year' field";
                     "Entry 3: 'year' must be an integer, got str" ]).
Proof.
  apply (structural_errors_reported no_container_str "data/timeline.yaml"
           [ YMap [(YStr "year", YInt 1990)];
             YMap [(YStr "title", YStr "Streetcar")];
             YMap [(YStr "year", YStr "2001")];
             YMap [(YStr "year", YInt 2020)] ]).
  - repeat constructor; eexists; reflexivity.
  - right. left. reflexivity.
Defined.

(** C6 does not hold of the code: a boolean [year] is no integer, yet it
    passes [isinstance(_, int)] on line 41, since [bool] is a subclass of
    [int]; the entry is accepted without the error of line 42,
    "'year' must be an integer". *)
Lemma boolean_year_accepted :
  let entry := YMap [(YStr "year", YBool true)] in
  (exists year, entry_year entry = Some year /\ forall n, year <> YInt n)
  /\ validate_timeline no_container_str "data/timeline.yaml"
       (Document (YSeq [entry]))
     = Return (true, []).
Proof.
  split; [|reflexivity].
  exists (YBool true). split; [reflexivity | discriminate].
Qed.

End TimelineSpec.

(** * Further properties of the link checker's extraction *)

Module TrimSpec.

Import LinkChecker.

(** Every character of [s] satisfies [f]. *)
Fixpoint all_chars (f : ascii -> bool) (s : string) : bool :=
  match s with
  | EmptyString => true
  | String c s' => f c && all_chars f s'
  end.

(** [s] ends with a character of [chars]. *)
Definition ends_in (chars s : string) : Prop :=
  exists body c, s = body ++ String c "" /\ char_in c chars = true.

Lemma rstrip_splits chars t :
  exists suffix,
    t = rstrip chars t ++ suffix
    /\ all_chars (fun c => char_in c chars) suffix = true
    /\ ~ ends_in chars (rstrip chars t).
Proof.
  induction t as [|a t [suffix [Heq [Hall Hend]]]]; cbn [rstrip].
  - exists "". split; [reflexivity|]. split; [reflexivity|].
    intros [[|b body] [c [H _]]]; discriminate.
  - destruct (rstrip chars t) as [|b r] eqn:E.
    + cbn [append] in Heq. subst suffix.
      destruct (char_in a chars) eqn:Ea.
      * exists (String a t). split; [reflexivity|]. split.
        -- cbn [all_chars]. now rewrite Ea, Hall.
        -- intros [[|b body] [c [H _]]]; discriminate.
      * exists t. split; [reflexivity|]. split; [exact Hall|].
        intros [[|b body] [c [H Hc]]].
        -- injection H as <-. congruence.
        -- injection H as _ H. destruct body; discriminate.
    + exists suffix. split; [cbn [append] in *; now f_equal|].
      split; [exact Hall|].
      intros [[|x body] [c [H Hc]]]; [discriminate|].
      injection H as _ H. apply Hend. now exists body, c.
Qed.

(** X1.  [trim] removes a run of trailing [.], [,], [;], [:] characters and
    nothing else: the URL is the trimmed URL followed by such characters
    only, and the trimmed URL does not end in one. *)
Theorem trim_removes_trailing_punctuation url :
  exists suffix,
    url = trim url ++ suffix
    /\ all_chars (fun c => char_in c ".,;:") suffix = true
    /\ ~ ends_in ".,;:" (trim url).
Proof. apply rstrip_splits. Qed.

Lemma rstrip_keeps chars a c b :
  char_in c chars = false ->
  exists r, rstrip chars (a ++ String c b) = a ++ String c r.
Proof.
  intros Hc. induction a as [|x a [r IH]]; cbn [append rstrip].
  - destruct (rstrip chars b) as [|y r].
    + rewrite Hc. now exists "".
    + now exists (String y r).
  - rewrite IH. exists r. destruct a; reflexivity.
Qed.

End TrimSpec.

Module PatternFacts.

Import LinkChecker TrimSpec.

(** A text that starts with [http://] or [https://]. *)
Definition has_scheme (url : string) : Prop :=
  exists rest, url = "http://" ++ rest \/ url = "https://" ++ rest.

Lemma strip_some p s r : strip p s = Some r -> s = p ++ r.
Proof.
  revert s. induction p as [|a p IH]; intros s; cbn [strip].
  - now intros [= ->].
  - destruct s as [|b s]; [discriminate|].
    destruct (Ascii.eqb a b) eqn:E; [|discriminate].
    apply Ascii.eqb_eq in E as ->. intros H. cbn [append]. now rewrite (IH _ H).
Qed.

Lemma scheme_some s sch r :
  scheme s = Some (sch, r) ->
  (sch = "http://" \/ sch = "https://") /\ s = sch ++ r.
Proof.
  unfold scheme. destruct (strip "http" s) as [r0|] eqn:E0; [|discriminate].
  apply strip_some in E0 as ->.
  destruct (strip "s" r0) as [r1|] eqn:E1.
  - apply strip_some in E1 as ->.
    destruct (strip "://" r1) as [rest|] eqn:E2; [|discriminate].
    apply strip_some in E2 as ->. intros [= <- <-]. split; [now right | reflexivity].
  - destruct (strip "://" r0) as [rest|] eqn:E2; [|discriminate].
    apply strip_some in E2 as ->. intros [= <- <-]. split; [now left | reflexivity].
Qed.

Lemma scheme_has_scheme s sch r body :
  scheme s = Some (sch, r) -> has_scheme (sch ++ body).
Proof.
  intros H. destruct (scheme_some _ _ _ H) as [[-> | ->] _];
    exists body; [now left | now right].
Qed.

Lemma markdown_link_here_scheme s url n :
  markdown_link_here s = Some (url, n) -> has_scheme url.
Proof.
  unfold markdown_link_here.
  destruct (strip "](" s) as [r|]; [|discriminate].
  destruct (scheme r) as [[sch r']|] eqn:E; [|discriminate].
  destruct (markdown_body false r') as [[|c body] rest]; [discriminate|].
  destruct (strip ")" rest); [|discriminate].
  intros [= <- _]. exact (scheme_has_scheme _ _ _ _ E).
Qed.

Lemma yaml_url_here_scheme s url n :
  yaml_url_here s = Some (url, n) -> has_scheme url.
Proof.
  unfold yaml_url_here.
  destruct (strip "url:" s) as [r|]; [|discriminate].
  destruct (span is_space r) as [spaces r1].
  destruct (strip_optional_quote r1) as [r2 opening].
  destruct (scheme r2) as [[sch r3]|] eqn:E; [|discriminate].
  destruct (span _ r3) as [[|c body] rest]; [discriminate|].
  destruct (strip_optional_quote rest) as [rest' closing].
  intros [= <- _]. exact (scheme_has_scheme _ _ _ _ E).
Qed.

Lemma bare_url_here_scheme prev s url n :
  bare_url_here prev s = Some (url, n) -> has_scheme url.
Proof.
  unfold bare_url_here.
  destruct (match prev with Some c => _ | None => false end); [discriminate|].
  destruct (scheme s) as [[sch r]|] eqn:E; [|discriminate].
  destruct (span _ r) as [[|c body] rest]; [discriminate|].
  intros [= <- _]. exact (scheme_has_scheme _ _ _ _ E).
Qed.

(** What holds of every match at a position holds of every capture. *)
Lemma finditer_all (P : string -> Prop) here :
  (forall prev s url n, here prev s = Some (url, n) -> P url) ->
  forall s prev skip, Forall P (finditer here prev skip s).
Proof.
  intros Hhere. induction s as [|c s IH]; intros prev skip.
  - destruct skip; cbn [finditer]; [|constructor].
    destruct (here prev "") as [[url n]|] eqn:E; [|constructor].
    constructor; [exact (Hhere _ _ _ _ E)|]. destruct n; constructor.
  - destruct skip; cbn [finditer]; [|apply IH].
    destruct (here prev (String c s)) as [[url n]|] eqn:E; [|apply IH].
    constructor; [exact (Hhere _ _ _ _ E)|]. destruct n; [constructor | apply IH].
Qed.

Lemma captures_have_scheme line :
  Forall has_scheme (markdown_link line)
  /\ Forall has_scheme (yaml_url line)
  /\ Forall has_scheme (bare_url line).
Proof.
  split; [|split]; apply finditer_all.
  - intros _ s url n. apply markdown_link_here_scheme.
  - intros _ s url n. apply yaml_url_here_scheme.
  - apply bare_url_here_scheme.
Qed.

Lemma trim_has_scheme url : has_scheme url -> has_scheme (trim url).
Proof.
  unfold trim. intros [rest [-> | ->]].
  - destruct (rstrip_keeps ".,;:" "http:/" "/" rest eq_refl) as [r Hr].
    exists r. left. exact Hr.
  - destruct (rstrip_keeps ".,;:" "https:/" "/" rest eq_refl) as [r Hr].
    exists r. right. exact Hr.
Qed.

End PatternFacts.

Module ExtractionExtra.

Import LinkChecker TextLines TrimSpec PatternFacts ExtractionSpec.

Lemma already_found_iff url urls_found :
  already_found url urls_found = true <-> In url urls_found.
Proof.
  unfold already_found. rewrite existsb_exists. split.
  - intros [u [Hin H]]. apply String.eqb_eq in H. now subst.
  - intros H. exists url. split; [exact H | apply String.eqb_refl].
Qed.

Lemma bare_loop_grows bare urls_found url :
  In url urls_found -> In url (bare_loop bare urls_found).
Proof.
  revert urls_found. induction bare as [|m rest IH]; intros urls_found H; [exact H|].
  cbn [bare_loop].
  destruct (negb (is_strict_prefix_of_found (trim m) urls_found)); [|now apply IH].
  destruct (negb (already_found (trim m) urls_found)); [|now apply IH].
  apply IH, in_or_app. now left.
Qed.

Lemma bare_loop_sound bare urls_found url :
  In url (bare_loop bare urls_found) ->
  In url urls_found \/ In url (map trim bare).
Proof.
  revert urls_found. induction bare as [|m rest IH]; intros urls_found; [now left|].
  cbn [bare_loop map].
  destruct (negb (is_strict_prefix_of_found (trim m) urls_found)).
  - destruct (negb (already_found (trim m) urls_found)).
    + intros H. apply IH in H as [H | H]; [|right; now right].
      apply in_app_or in H as [H | [<- | []]]; [now left | right; now left].
    + intros H. apply IH in H as [H | H]; [now left | right; now right].
  - intros H. apply IH in H as [H | H]; [now left | right; now right].
Qed.

Lemma bare_loop_complete bare urls_found m :
  In m bare ->
  In (trim m) (bare_loop bare urls_found)
  \/ exists found, In found (bare_loop bare urls_found)
                   /\ proper_prefix (trim m) found.
Proof.
  revert urls_found. induction bare as [|m' rest IH]; intros urls_found; [intros []|].
  intros [-> | Hin]; cbn [bare_loop].
  - destruct (is_strict_prefix_of_found (trim m) urls_found) eqn:Ep; cbn [negb].
    + apply is_strict_prefix_of_found_iff in Ep as [found [Hf Hpp]].
      right. exists found. split; [now apply bare_loop_grows | exact Hpp].
    + destruct (already_found (trim m) urls_found) eqn:Ea; cbn [negb].
      * left. apply bare_loop_grows. now apply already_found_iff.
      * left. apply bare_loop_grows, in_or_app. right. now left.
  - destruct (negb (is_strict_prefix_of_found (trim m') urls_found));
      [destruct (negb (already_found (trim m') urls_found))|]; now apply IH.
Qed.

Lemma bare_loop_fresh bare urls_found :
  exists added,
    bare_loop bare urls_found = (urls_found ++ added)%list
    /\ NoDup added
    /\ forall url, In url added -> ~ In url urls_found.
Proof.
  revert urls_found. induction bare as [|m rest IH]; intros urls_found.
  - exists []. split; [now rewrite app_nil_r|]. split; [constructor | intros ? []].
  - cbn [bare_loop].
    destruct (is_strict_prefix_of_found (trim m) urls_found); cbn [negb];
      [apply IH|].
    destruct (already_found (trim m) urls_found) eqn:Ea; cbn [negb]; [apply IH|].
    destruct (IH (urls_found ++ [trim m])%list) as [added [Heq [Hnd Hfresh]]].
    exists (trim m :: added). split; [now rewrite Heq, <- app_assoc|]. split.
    + constructor; [|exact Hnd]. intros Hin.
      apply (Hfresh _ Hin), in_or_app. right. now left.
    + intros url [<- | Hin].
      * rewrite <- already_found_iff, Ea. discriminate.
      * intros Hf. apply (Hfresh _ Hin), in_or_app. now left.
Qed.

Lemma urls_found_accounted markdown yaml bare :
  let found := urls_found_on_line markdown yaml bare in
  (forall url, In url found ->
     In url (map trim markdown) \/ In url (map trim yaml) \/ In url (map trim bare))
  /\ (forall m, In m markdown \/ In m yaml -> In (trim m) found)
  /\ (forall m, In m bare ->
        In (trim m) found
        \/ exists longer, In longer found /\ proper_prefix (trim m) longer).
Proof.
  unfold urls_found_on_line. split; [|split].
  - intros url H. apply bare_loop_sound in H as [H | H]; [|now right; right].
    apply in_app_or in H as [H | H]; [now left | right; now left].
  - intros m H. apply bare_loop_grows, in_or_app.
    destruct H as [H | H]; [left | right]; now apply in_map.
  - intros m H. now apply bare_loop_complete.
Qed.

(** X2.  The URLs found on a line are exactly accounted for by the three
    patterns: each is the trimmed capture of one of them; every trimmed
    markdown or YAML capture is among them; and every trimmed bare capture
    is among them or is a proper prefix of one that is. *)
Theorem urls_found_sound_and_complete markdown yaml bare :
  let found := urls_found_on_line markdown yaml bare in
  (forall url, In url found ->
     In url (map trim markdown) \/ In url (map trim yaml) \/ In url (map trim bare))
  /\ (forall m, In m markdown \/ In m yaml -> In (trim m) found)
  /\ (forall m, In m bare ->
        In (trim m) found
        \/ exists longer, In longer found /\ proper_prefix (trim m) longer).
Proof. exact (urls_found_accounted markdown yaml bare). Qed.

(** X3.  What the bare rule adds on a line is new: the added URLs are
    pairwise different and none of them is a markdown or YAML capture, so a
    URL that the bare pattern meets again is listed once. *)
Theorem bare_rule_adds_each_url_once markdown yaml bare :
  exists added,
    urls_found_on_line markdown yaml bare
      = (map trim markdown ++ map trim yaml ++ added)%list
    /\ NoDup added
    /\ forall url, In url added ->
         ~ In url (map trim markdown) /\ ~ In url (map trim yaml).
Proof.
  unfold urls_found_on_line.
  destruct (bare_loop_fresh bare (map trim markdown ++ map trim yaml)%list)
    as [added [Heq [Hnd Hfresh]]].
  exists added. split; [now rewrite Heq, <- app_assoc|]. split; [exact Hnd|].
  intros url Hin. specialize (Hfresh url Hin).
  split; intros H; apply Hfresh, in_or_app; [now left | now right].
Qed.

(** X4.  Every URL reported for a line of text starts with [http://] or
    [https://], does not end in [.], [,], [;] or [:], and carries the
    line's number. *)
Theorem reported_urls_well_formed line_num line n url :
  In (n, url) (urls_on_line line_num line) ->
  n = line_num /\ has_scheme url /\ ~ ends_in ".,;:" url.
Proof.
  intros H. split; [exact (line_file_urls_line_num _ _ _ _ _ _ H)|].
  unfold urls_on_line, line_file_urls in H.
  apply in_map_iff in H as [u [[= _ ->] Hu]].
  apply filter_In in Hu as [Hu _].
  destruct (captures_have_scheme line) as [Hmd [Hy Hb]].
  assert (Htrim : exists m, url = trim m /\ has_scheme m).
  { destruct (urls_found_accounted (markdown_link line) (yaml_url line)
                (bare_url line)) as [Hsound _].
    destruct (Hsound url Hu) as [H | [H | H]];
      apply in_map_iff in H as [m [<- Hm]]; exists m; (split; [reflexivity|]).
    - exact (proj1 (Forall_forall _ _) Hmd m Hm).
    - exact (proj1 (Forall_forall _ _) Hy m Hm).
    - exact (proj1 (Forall_forall _ _) Hb m Hm). }
  destruct Htrim as [m [-> Hm]]. split; [now apply trim_has_scheme|].
  destruct (rstrip_splits ".,;:" m) as [_ [_ [_ Hend]]]. exact Hend.
Qed.

Lemma reported_urls_well_formed_witness :
  In (4, "https://www.seattle.gov/transit")
     (urls_on_line 4 "See https://www.seattle.gov/transit.")
  /\ has_scheme "https://www.seattle.gov/transit"
  /\ ~ ends_in ".,;:" "https://www.seattle.gov/transit".
Proof.
  assert (H : In (4, "https://www.seattle.gov/transit")
                 (urls_on_line 4 "See https://www.seattle.gov/transit."))
    by (left; reflexivity).
  split; [exact H|].
  exact (proj2 (reported_urls_well_formed 4 _ 4 _ H)).
Defined.

End ExtractionExtra.

Module FileScanSpec.

Import LinkChecker TextLines PatternFacts TrimSpec ExtractionSpec ExtractionExtra.

Lemma file_urls_entry start lines n url :
  In (n, url) (file_urls start lines) ->
  exists k line,
    nth_error lines k = Some line
    /\ n = start + Z.of_nat k
    /\ In (n, url) (urls_on_line n line).
Proof.
  revert start. induction lines as [|line rest IH]; intros start; [intros []|].
  cbn [file_urls]. intros H. apply in_app_or in H as [H | H].
  - exists 0%nat, line. split; [reflexivity|].
    pose proof (line_file_urls_line_num _ _ _ _ _ _ H) as ->.
    split; [lia | exact H].
  - destruct (IH _ H) as [k [l [Hk [Hn Hin]]]].
    exists (S k), l. split; [exact Hk|]. split; [lia | exact Hin].
Qed.

Lemma file_urls_from start lines :
  Forall (fun entry => start <= fst entry) (file_urls start lines).
Proof.
  apply Forall_forall. intros [n url] H.
  destruct (file_urls_entry _ _ _ _ H) as [k [_ [_ [-> _]]]]. cbn. lia.
Qed.

Lemma ordered_app (l1 l2 : list (Z * string)) (k : Z) :
  Forall (fun entry => fst entry = k) l1 ->
  Forall (fun entry => k <= fst entry) l2 ->
  ForallOrdPairs (fun a b => fst a <= fst b) l2 ->
  ForallOrdPairs (fun a b => fst a <= fst b) (l1 ++ l2).
Proof.
  intros H1 H2 H3. induction H1 as [|a l1 Ha H1 IH]; [exact H3|].
  cbn [app]. constructor; [|exact IH].
  apply Forall_app. split.
  - eapply Forall_impl; [|exact H1]. cbn. intros b Hb. lia.
  - eapply Forall_impl; [|exact H2]. cbn. intros b Hb. lia.
Qed.

(** X5.  Each entry of a file's URL list names a line of the file, counted
    from 1, and a URL found on that very line; the entries come in the order
    of the lines. *)
Theorem file_urls_line_numbers lines :
  (forall n url,
      In (n, url) (file_urls 1 lines) ->
      1 <= n <= Z.of_nat (length lines)
      /\ exists line, nth_error lines (Z.to_nat (n - 1)) = Some line
                      /\ In (n, url) (urls_on_line n line))
  /\ ForallOrdPairs (fun a b => fst a <= fst b) (file_urls 1 lines).
Proof.
  split.
  - intros n url H. destruct (file_urls_entry _ _ _ _ H) as [k [line [Hk [-> Hin]]]].
    assert (k < length lines)%nat by (apply nth_error_Some; congruence).
    split; [lia|]. exists line.
    replace (Z.to_nat (1 + Z.of_nat k - 1)) with k by lia. now split.
  - generalize 1. induction lines as [|line rest IH]; intros start; [constructor|].
    cbn [file_urls]. apply (ordered_app _ _ start).
    + apply Forall_forall. intros [n url] H. cbn.
      exact (line_file_urls_line_num _ _ _ _ _ _ H).
    + eapply Forall_impl; [|apply (file_urls_from (start + 1))]. cbn. intros; lia.
    + apply IH.
Qed.

Lemma find_external_urls_iff files rel_path urls :
  In (rel_path, urls) (find_external_urls files) <->
  urls <> [] /\ exists lines, In (rel_path, lines) files /\ urls = file_urls 1 lines.
Proof.
  split; [apply find_external_urls_in|].
  intros [Hne [lines [Hin ->]]].
  induction files as [|[path ls] rest IH]; [destruct Hin|].
  cbn [find_external_urls]. destruct Hin as [[= -> ->] | Hin].
  - destruct (file_urls 1 lines); [contradiction | now left].
  - destruct (file_urls 1 ls); [now apply IH | right; now apply IH].
Qed.

Lemma find_external_urls_characterised files :
  (forall rel_path urls,
      In (rel_path, urls) (find_external_urls files) <->
      urls <> [] /\ exists lines, In (rel_path, lines) files
                                  /\ urls = file_urls 1 lines)
  /\ (find_external_urls files = [] <->
      forall rel_path lines, In (rel_path, lines) files -> file_urls 1 lines = []).
Proof.
  split; [apply find_external_urls_iff|]. split.
  - intros Hnil rel_path lines Hin.
    destruct (file_urls 1 lines) as [|u us] eqn:E; [reflexivity|].
    assert (H : In (rel_path, u :: us) (find_external_urls files)).
    { apply find_external_urls_iff. split; [discriminate|]. now exists lines. }
    rewrite Hnil in H. destruct H.
  - intros Hall. destruct (find_external_urls files) as [|[path urls] rest] eqn:E;
      [reflexivity|].
    assert (H : In (path, urls) (find_external_urls files)) by (rewrite E; now left).
    apply find_external_urls_iff in H as [Hne [lines [Hin ->]]].
    now rewrite (Hall _ _ Hin) in Hne.
Qed.

(** X6.  [find_external_urls] returns a file exactly when the file holds at
    least one surviving URL, with the whole URL list of the file; a file
    without one is absent, so the result is empty exactly when no file
    holds a URL. *)
Theorem find_external_urls_files files :
  (forall rel_path urls,
      In (rel_path, urls) (find_external_urls files) <->
      urls <> [] /\ exists lines, In (rel_path, lines) files
                                  /\ urls = file_urls 1 lines)
  /\ (find_external_urls files = [] <->
      forall rel_path lines, In (rel_path, lines) files -> file_urls 1 lines = []).
Proof. exact (find_external_urls_characterised files). Qed.

(** X7.  The result of [should_skip_url] does not depend on the order in
    which the set of domains is walked, and a text that contains a skipped
    URL is skipped as well. *)
Theorem should_skip_url_order_free :
  (forall domains domains' url,
      Permutation domains domains' ->
      skip_loop domains url = skip_loop domains' url)
  /\ (forall url before after,
         should_skip_url url = true ->
         should_skip_url (before ++ url ++ after) = true).
Proof.
  split.
  - intros domains domains' url Hperm.
    destruct (skip_loop domains url) eqn:E; symmetry.
    + apply skip_loop_iff in E as [d [Hin H]]. apply skip_loop_iff.
      exists d. split; [exact (Permutation_in _ Hperm Hin) | exact H].
    + apply not_true_is_false. intros E'.
      apply skip_loop_iff in E' as [d [Hin H]].
      assert (skip_loop domains url = true); [|congruence].
      apply skip_loop_iff. exists d.
      split; [exact (Permutation_in _ (Permutation_sym Hperm) Hin) | exact H].
  - intros url before after H.
    apply should_skip_url_iff in H as [d [a [b [Hin ->]]]].
    apply should_skip_url_iff. exists d, (before ++ a), (b ++ after).
    split; [exact Hin|]. now rewrite !append_assoc.
Qed.

Lemma should_skip_url_order_free_witness :
  skip_loop (rev SKIP_DOMAINS) "https://x.com/seattle" = true
  /\ should_skip_url "see https://x.com/seattle now" = true.
Proof.
  destruct should_skip_url_order_free as [Horder Hembed]. split.
  - rewrite <- (Horder SKIP_DOMAINS (rev SKIP_DOMAINS) _ (Permutation_rev _)).
    reflexivity.
  - apply (Hembed "https://x.com/seattle" "see " " now"). reflexivity.
Defined.

(** Line breaks. *)

Lemma pieces_nonempty s : pieces s <> [].
Proof.
  destruct s as [|c s]; cbn [pieces]; [discriminate|].
  destruct (is_linebreak c).
  - destruct s as [|d s]; [discriminate|].
    destruct (Ascii.eqb c CR && Ascii.eqb d LF); discriminate.
  - destruct (pieces s); discriminate.
Qed.

Lemma pieces_unbroken_upto (n : nat) :
  forall s, (String.length s <= n)%nat ->
  Forall (fun piece => all_chars (fun c => negb (is_linebreak c)) piece = true)
         (pieces s).
Proof.
  induction n as [|n IH]; intros s Hlen.
  - destruct s; [repeat constructor | cbn in Hlen; lia].
  - destruct s as [|c s]; [repeat constructor|].
    cbn [String.length] in Hlen. cbn [pieces].
    destruct (is_linebreak c) eqn:Ec.
    + destruct s as [|d s]; [repeat constructor|].
      cbn [String.length] in Hlen.
      destruct (Ascii.eqb c CR && Ascii.eqb d LF);
        (constructor; [reflexivity|]); apply IH; cbn [String.length]; lia.
    + assert (Hs := IH s ltac:(lia)).
      destruct (pieces s) as [|piece rest].
      * repeat constructor. cbn. now rewrite Ec.
      * inversion Hs as [|? ? Hp Hrest]; subst.
        constructor; [cbn; now rewrite Ec, Hp | exact Hrest].
Qed.

Lemma pieces_unbroken s :
  Forall (fun piece => all_chars (fun c => negb (is_linebreak c)) piece = true)
         (pieces s).
Proof. apply (pieces_unbroken_upto (String.length s)). lia. Qed.

Lemma drop_empty_tail_incl ps p : In p (drop_empty_tail ps) -> In p ps.
Proof.
  induction ps as [|q rest IH]; [intros []|].
  cbn [drop_empty_tail]. destruct q as [|c q].
  - destruct rest as [|r rest']; [intros []|].
    intros [<- | H]; [now left | right; now apply IH].
  - intros [<- | H]; [now left | right; now apply IH].
Qed.

End FileScanSpec.

Module LinesSpec.

Import LinkChecker TextLines TrimSpec FileScanSpec.

(** A text without any line-break character. *)
Definition unbroken (line : string) : bool :=
  all_chars (fun c => negb (is_linebreak c)) line.

(** The lines written out one after the other, each ended by a line feed. *)
Fixpoint join_lines (lines : list string) : string :=
  match lines with
  | [] => ""
  | line :: rest => line ++ String LF (join_lines rest)
  end.

Lemma pieces_line line rest :
  unbroken line = true ->
  pieces (line ++ String LF rest) = line :: pieces rest.
Proof.
  induction line as [|c line IH]; intros Hline.
  - cbn [append pieces]. destruct rest as [|d rest]; reflexivity.
  - cbn in Hline. apply andb_true_iff in Hline as [Hc Hline].
    apply negb_true_iff in Hc. cbn [append pieces]. rewrite Hc, (IH Hline).
    reflexivity.
Qed.

Lemma drop_empty_tail_snoc lines : drop_empty_tail (lines ++ [""]) = lines.
Proof.
  induction lines as [|line rest IH]; [reflexivity|].
  cbn [app drop_empty_tail]. rewrite IH.
  destruct line; [|reflexivity]. destruct rest; reflexivity.
Qed.

(** X8.  [splitlines] yields lines free of line-break characters, and it
    gives back the lines of a text that was written line by line: splitting
    the lines joined by line feeds returns them. *)
Theorem splitlines_lines :
  (forall content, Forall (fun line => unbroken line = true) (splitlines content))
  /\ (forall lines,
         Forall (fun line => unbroken line = true) lines ->
         splitlines (join_lines lines) = lines).
Proof.
  split.
  - intros content. apply Forall_forall. intros line Hin.
    apply drop_empty_tail_incl in Hin.
    exact (proj1 (Forall_forall _ _) (pieces_unbroken content) line Hin).
  - intros lines Hall. unfold splitlines.
    assert (pieces (join_lines lines) = (lines ++ [""])%list) as ->;
      [|apply drop_empty_tail_snoc].
    induction Hall as [|line rest Hline _ IH]; [reflexivity|].
    cbn [join_lines app]. now rewrite (pieces_line _ _ Hline), IH.
Qed.

Lemma splitlines_lines_witness :
  splitlines (join_lines ["# Links"; ""; "url: https://www.seattle.gov/"])
  = ["# Links"; ""; "url: https://www.seattle.gov/"].
Proof.
  apply (proj2 splitlines_lines). repeat constructor.
Defined.

End LinesSpec.

(** * Further properties of [check_url] *)

Module CheckUrlExtra.

Import LinkChecker CheckUrlFacts CheckUrlSpec.

(** A failure that is tried again while the budget lasts. *)
Definition transient (outcome : fetch_outcome) : bool :=
  match outcome with
  | URLError _ => true
  | HTTPError code => retryable code
  | Response _ | OtherException _ => false
  end.

Definition retry_trace (attempts : list Z) : list event :=
  flat_map (fun a => [EvRequest a; EvSleep (2 ^ a)]) attempts.

Lemma retryable_not_decided code :
  retryable code = true -> (code =? 404) = false /\ (code =? 403) = false.
Proof.
  intros H. apply retryable_iff in H. split; apply Z.eqb_neq; lia.
Qed.

Lemma attempt_loop_transient urlopen retries attempts rest :
  (forall a, In a attempts -> a < retries /\ transient (urlopen a) = true) ->
  attempt_loop urlopen retries (attempts ++ rest) =
    (fst (attempt_loop urlopen retries rest),
     (retry_trace attempts ++ snd (attempt_loop urlopen retries rest))%list).
Proof.
  induction attempts as [|a l IH]; intros H.
  - cbn [app retry_trace flat_map]. now destruct (attempt_loop urlopen retries rest).
  - destruct (H a (or_introl eq_refl)) as [Hlt Htr].
    apply Z.ltb_lt in Hlt.
    cbn [app attempt_loop]. rewrite IH by (intros b Hb; apply H; now right).
    destruct (urlopen a) as [content|code|reason|msg]; try discriminate;
      cbn [transient] in Htr.
    + destruct (retryable_not_decided code Htr) as [-> ->].
      now rewrite Htr, Hlt.
    + now rewrite Hlt.
Qed.

Lemma range_split (n k : Z) :
  0 <= k < n -> exists tail, range n = (range k ++ k :: tail)%list.
Proof.
  intros H. unfold range.
  replace (Z.to_nat n) with (Z.to_nat k + S (Z.to_nat (n - k - 1)))%nat by lia.
  rewrite seq_app, map_app. cbn [seq map plus]. rewrite Z2Nat.id by lia.
  eexists. reflexivity.
Qed.

Lemma sum_powers (m : Z) :
  0 <= m -> fold_right Z.add 0 (map (fun a => 2 ^ a) (range m)) = 2 ^ m - 1.
Proof.
  intros Hm. pattern m. apply natlike_ind; [reflexivity | | exact Hm].
  intros k Hk IH. unfold Z.succ. rewrite (range_snoc k Hk), map_app, fold_right_app.
  cbn [map fold_right]. rewrite Z.add_0_r.
  assert (Hshift : forall l z, fold_right Z.add z l = fold_right Z.add 0 l + z).
  { induction l as [|x l IHl]; intros z; cbn [fold_right]; [lia|].
    rewrite IHl. lia. }
  rewrite Hshift, IH, Z.pow_add_r by lia. change (2 ^ 1) with 2. lia.
Qed.

(** X9.  When every attempt fails with a connection error or with status
    406, 429 or 503, in any mixture, [check_url] makes [retries + 1]
    attempts with sleeps of 1, 2, 4, ... seconds between them and reports
    the last failure: "Connection error: {reason}" or
    "HTTP {code} (after {retries + 1} attempts)". *)
Theorem check_url_all_transient net url retries :
  0 <= retries ->
  (forall attempt, 0 <= attempt <= retries -> transient (net url attempt) = true) ->
  let r := check_url net url retries in
  trace r = (retry_trace (range retries) ++ [EvRequest retries])%list
  /\ sleeps (trace r) = map (fun a => 2 ^ a) (range retries)
  /\ (forall reason,
        net url retries = URLError reason ->
        value r = (false, "Connection error: " ++ reason))
  /\ (forall code,
        net url retries = HTTPError code ->
        value r = (false, "HTTP " ++ str_of_int code ++ " (after "
                            ++ str_of_int (retries + 1) ++ " attempts)")).
Proof.
  intros Hr Hall r. subst r. unfold check_url.
  rewrite (range_snoc retries Hr), attempt_loop_transient.
  - assert (Hlast := Hall retries ltac:(lia)).
    cbn [attempt_loop]. rewrite Z.ltb_irrefl.
    destruct (net url retries) as [content|code|reason|msg]; try discriminate;
      cbn [transient] in Hlast.
    + destruct (retryable_not_decided code Hlast) as [-> ->]. rewrite Hlast.
      cbn [fst snd trace value returned].
      unfold retry_trace. rewrite sleeps_retry_trace.
      split; [reflexivity|]. split; [reflexivity|].
      split; [discriminate | now intros ? [= <-]].
    + cbn [fst snd trace value returned].
      unfold retry_trace. rewrite sleeps_retry_trace.
      split; [reflexivity|]. split; [reflexivity|].
      split; [now intros ? [= <-] | discriminate].
  - intros a Ha. apply in_range in Ha. split; [lia | apply Hall; lia].
Qed.

Definition net_unreachable : string -> Z -> fetch_outcome :=
  fun _ attempt => if attempt =? 1 then HTTPError 503 else URLError "timed out".

Lemma check_url_all_transient_witness :
  let r := check_url net_unreachable "https://a.test/" 2 in
  trace r = [EvRequest 0; EvSleep 1; EvRequest 1; EvSleep 2; EvRequest 2]
  /\ value r = (false, "Connection error: timed out").
Proof.
  assert (H02 : 0 <= 2) by lia.
  assert (Hall : forall attempt, 0 <= attempt <= 2 ->
                   transient (net_unreachable "https://a.test/" attempt) = true).
  { intros attempt _. unfold net_unreachable. now destruct (attempt =? 1). }
  destruct (check_url_all_transient net_unreachable "https://a.test/" 2 H02 Hall)
    as [Htr [_ [Hv _]]].
  intros r. split; [exact Htr | exact (Hv "timed out" eq_refl)].
Defined.

(** X10.  Whatever the network does, a run with budget [retries >= 0] stops
    at some attempt [m <= retries]: it has made the attempts [0 .. m], one
    after the other, and has slept [2 ^ a] seconds after each attempt [a]
    before [m]; so it makes at most [retries + 1] requests and sleeps
    [2 ^ m - 1] seconds in all, at most [2 ^ retries - 1]. *)
Theorem check_url_trace_shape net url retries :
  0 <= retries ->
  exists m,
    0 <= m <= retries
    /\ trace (check_url net url retries)
       = (retry_trace (range m) ++ [EvRequest m])%list
    /\ requests (trace (check_url net url retries)) = range (m + 1)
    /\ fold_right Z.add 0 (sleeps (trace (check_url net url retries))) = 2 ^ m - 1
    /\ 2 ^ m - 1 <= 2 ^ retries - 1.
Proof.
  intros Hr.
  assert (Hshape : forall n k,
             Z.of_nat (k + S n) = retries + 1 ->
             exists m, Z.of_nat k <= m <= retries
               /\ snd (attempt_loop (net url) retries
                         (map Z.of_nat (seq k (S n))))
                  = (retry_trace (map Z.of_nat (seq k (Z.to_nat m - k)))
                       ++ [EvRequest m])%list).
  { induction n as [|n IH]; intros k Hk.
    - exists (Z.of_nat k). split; [lia|].
      replace (Z.to_nat (Z.of_nat k) - k)%nat with 0%nat by lia.
      cbn [seq map attempt_loop retry_trace flat_map app].
      assert ((Z.of_nat k <? retries) = false) as -> by (apply Z.ltb_ge; lia).
      destruct (net url (Z.of_nat k)) as [content|code|reason|msg];
        try reflexivity.
      + now destruct (soft_404_scan soft_404_patterns content).
      + destruct (code =? 404); [reflexivity|].
        destruct (code =? 403); [reflexivity|].
        now destruct (retryable code).
    - destruct (IH (S k) ltac:(lia)) as [m [Hm Htr]].
      assert (Hdecided : exists m0, Z.of_nat k <= m0 <= retries
                /\ [EvRequest (Z.of_nat k)]
                   = (retry_trace (map Z.of_nat (seq k (Z.to_nat m0 - k)))
                        ++ [EvRequest m0])%list).
      { exists (Z.of_nat k). split; [lia|].
        now replace (Z.to_nat (Z.of_nat k) - k)%nat with 0%nat by lia. }
      assert (Hagain : exists m0, Z.of_nat k <= m0 <= retries
                /\ (EvRequest (Z.of_nat k) :: EvSleep (2 ^ Z.of_nat k)
                     :: snd (attempt_loop (net url) retries
                               (map Z.of_nat (seq (S k) (S n)))))
                   = (retry_trace (map Z.of_nat (seq k (Z.to_nat m0 - k)))
                        ++ [EvRequest m0])%list).
      { exists m. split; [lia|]. rewrite Htr.
        replace (Z.to_nat m - k)%nat with (S (Z.to_nat m - S k)) by lia.
        reflexivity. }
      change (seq k (S (S n))) with (k :: seq (S k) (S n)).
      cbn [map attempt_loop].
      destruct (attempt_loop (net url) retries (map Z.of_nat (seq (S k) (S n))))
        as [r tr].
      cbn [snd] in Hagain.
      destruct (net url (Z.of_nat k)) as [content|code|reason|msg];
        try exact Hdecided.
      + now destruct (soft_404_scan soft_404_patterns content).
      + destruct (code =? 404); [exact Hdecided|].
        destruct (code =? 403); [exact Hdecided|].
        destruct (retryable code); [|exact Hdecided].
        now destruct (Z.of_nat k <? retries).
      + now destruct (Z.of_nat k <? retries). }
  destruct (Hshape (Z.to_nat retries) 0%nat ltac:(lia)) as [m [Hm Htr]].
  exists m. split; [lia|].
  assert (Htrace : trace (check_url net url retries)
                   = (retry_trace (range m) ++ [EvRequest m])%list).
  { unfold check_url, range.
    replace (Z.to_nat (retries + 1)) with (S (Z.to_nat retries)) by lia.
    destruct (attempt_loop (net url) retries
                (map Z.of_nat (seq 0 (S (Z.to_nat retries))))) as [r tr].
    cbn [trace snd] in *. rewrite Htr. now rewrite Nat.sub_0_r. }
  rewrite Htrace. unfold retry_trace.
  rewrite requests_retry_trace, sleeps_retry_trace, sum_powers by lia.
  split; [reflexivity|]. split; [now rewrite range_snoc by lia|].
  split; [reflexivity|].
  assert (2 ^ m <= 2 ^ retries) by (apply Z.pow_le_mono_r; lia). lia.
Qed.

Lemma check_url_trace_shape_witness :
  exists m,
    0 <= m <= 2
    /\ fold_right Z.add 0 (sleeps (trace (check_url net_unreachable "https://a.test/" 2)))
       = 2 ^ m - 1
    /\ 2 ^ m - 1 <= 3.
Proof.
  assert (H02 : 0 <= 2) by lia.
  destruct (check_url_trace_shape net_unreachable "https://a.test/" 2 H02)
    as [m [Hm [_ [_ [Hsum Hle]]]]].
  exists m. split; [exact Hm|]. split; [exact Hsum | exact Hle].
Defined.

(** X11.  Failures that are retried do not decide the result: when the
    attempts before attempt [k <= retries] fail with a connection error or
    status 406, 429 or 503 and attempt [k] receives a page, [check_url]
    judges that page (valid, or a soft 404), having slept after each of the
    [k] failed attempts. *)
Theorem check_url_recovers net url retries k body :
  0 <= k <= retries ->
  (forall attempt, 0 <= attempt < k -> transient (net url attempt) = true) ->
  net url k = Response body ->
  check_url net url retries =
    match soft_404_scan soft_404_patterns body with
    | Some phrase =>
        mkRun (ret_soft_404 phrase) (false, soft_404_message phrase)
              (retry_trace (range k) ++ [EvRequest k])
    | None => mkRun ret_ok (true, "") (retry_trace (range k) ++ [EvRequest k])
    end.
Proof.
  intros Hk Hall Hresp. unfold check_url.
  destruct (range_split (retries + 1) k ltac:(lia)) as [tail ->].
  rewrite attempt_loop_transient
    by (intros a Ha; apply in_range in Ha; split; [lia | apply Hall; lia]).
  cbn [attempt_loop]. rewrite Hresp.
  now destruct (soft_404_scan soft_404_patterns body).
Qed.

Definition net_second_try : string -> Z -> fetch_outcome :=
  fun _ attempt =>
    if attempt =? 0 then HTTPError 503
    else Response "<html><title>Transit</title></html>".

Lemma check_url_recovers_witness :
  check_url net_second_try "https://a.test/" 2
  = mkRun ret_ok (true, "") [EvRequest 0; EvSleep 1; EvRequest 1].
Proof.
  assert (Hk : 0 <= 1 <= 2) by lia.
  assert (Hall : forall attempt, 0 <= attempt < 1 ->
                   transient (net_second_try "https://a.test/" attempt) = true).
  { intros attempt Ha. assert (attempt = 0) as -> by lia. reflexivity. }
  exact (check_url_recovers net_second_try "https://a.test/" 2 1
           "<html><title>Transit</title></html>" Hk Hall eq_refl).
Defined.

(** X12.  [check_url] returns an empty message exactly when it returns
    valid, and it returns valid only for a page that is no soft 404 or for
    status 403; this holds for every budget, negative ones included. *)
Theorem check_url_valid_iff_no_message net url retries :
  let r := check_url net url retries in
  (fst (value r) = true <-> snd (value r) = "")
  /\ (fst (value r) = true <-> site r = ret_ok \/ site r = ret_http_403).
Proof.
  cbn zeta. unfold check_url.
  destruct (attempt_loop (net url) retries (range (retries + 1))) as [r tr].
  cbn [site value]. destruct r; cbn [returned fst snd];
    (split; split; intros H; try discriminate; try reflexivity;
     try (now left); try (now right); try (destruct H; discriminate)).
Qed.

(** X13.  Any listed phrase that stands right after an opening [<title>] or
    [<h1>], wherever in the page, makes the page a soft 404, and the
    message names the first phrase of the list that meets the test of
    lines 146-151. *)
Theorem check_url_soft_404_first_phrase net url retries body phrase :
  0 <= retries ->
  net url 0 = Response body ->
  In phrase soft_404_patterns ->
  str_in ("<title>" ++ phrase) body = true \/ str_in ("<h1>" ++ phrase) body = true ->
  exists earlier named later,
    soft_404_patterns = (earlier ++ named :: later)%list
    /\ (forall p, In p earlier -> ~ anchored p body)
    /\ anchored named body
    /\ value (check_url net url retries) = (false, soft_404_message named).
Proof.
  intros Hr Hnet Hin Htag.
  assert (Hanch : anchored phrase body).
  { split; [|tauto].
    destruct Htag as [H | H]; exact (str_in_append_r _ _ _ H). }
  rewrite (check_url_response _ _ _ _ Hr Hnet).
  assert (Hscan : forall patterns,
             In phrase patterns ->
             exists earlier named later,
               patterns = (earlier ++ named :: later)%list
               /\ (forall p, In p earlier -> ~ anchored p body)
               /\ anchored named body
               /\ soft_404_scan patterns body = Some named).
  { induction patterns as [|p rest IH]; [intros []|]. intros Hp.
    cbn [soft_404_scan]. destruct (soft_404_hit p body) eqn:E.
    - exists [], p, rest. split; [reflexivity|]. split; [intros ? []|].
      split; [now apply soft_404_hit_anchored | reflexivity].
    - destruct Hp as [-> | Hp].
      + apply soft_404_hit_anchored in Hanch. congruence.
      + destruct (IH Hp) as [earlier [named [later [-> [He [Hn Hs]]]]]].
        exists (p :: earlier), named, later. split; [reflexivity|].
        split; [|now split].
        intros q [<- | Hq]; [|now apply He].
        rewrite <- soft_404_hit_anchored, E. discriminate. }
  destruct (Hscan soft_404_patterns Hin)
    as [earlier [named [later [Heq [He [Hn Hs]]]]]].
  exists earlier, named, later. rewrite Hs. auto.
Qed.

Definition late_heading_page : string :=
  filler 5000 ++ "<h1>Nothing was found</h1>".

Definition net_late_heading : string -> Z -> fetch_outcome :=
  fun _ _ => Response late_heading_page.

Lemma check_url_soft_404_first_phrase_witness :
  exists named,
    value (check_url net_late_heading "https://a.test/" 0)
    = (false, soft_404_message named)
    /\ anchored named late_heading_page.
Proof.
  assert (H00 : 0 <= 0) by lia.
  assert (Hin : In "Nothing was found" soft_404_patterns)
    by (do 5 right; left; reflexivity).
  assert (Htag : str_in ("<title>" ++ "Nothing was found")
                        late_heading_page = true
                 \/ str_in ("<h1>" ++ "Nothing was found")
                           late_heading_page = true)
    by (right; vm_compute; reflexivity).
  destruct (check_url_soft_404_first_phrase net_late_heading "https://a.test/" 0
              late_heading_page "Nothing was found"
              H00 eq_refl Hin Htag)
    as [earlier [named [later [_ [_ [Hn Hv]]]]]].
  exists named. split; [exact Hv | exact Hn].
Defined.

End CheckUrlExtra.

(** * Further properties of the link checker's [main] *)

Module DedupSpec.

Import LinkChecker LinkMain.

(** The occurrences the scan recorded, in the order [main] walks them: file
    by file, and within a file in list order. *)
Definition scan (url_map : url_map_t) : list (string * (string * Z)) :=
  flat_map (fun '(file_path, urls) =>
              map (fun '(line_num, url) => (url, (file_path, line_num))) urls)
           url_map.

(** Where [url] occurs, in scan order. *)
Definition occurrences (url : string) (url_map : url_map_t) : list (string * Z) :=
  map snd (filter (fun entry => String.eqb (fst entry) url) (scan url_map)).

Definition step (acc : unique_urls_t) (entry : string * (string * Z)) : unique_urls_t :=
  add_location (fst entry) (snd entry) acc.

Fixpoint locations (url : string) (unique_urls : unique_urls_t)
  : option (list (string * Z)) :=
  match unique_urls with
  | [] => None
  | (u, locs) :: rest => if String.eqb u url then Some locs else locations url rest
  end.

Lemma deduplicate_scan url_map :
  deduplicate url_map = fold_left step (scan url_map) [].
Proof.
  unfold deduplicate, scan. generalize (@nil (string * list (string * Z))).
  induction url_map as [|[file_path urls] rest IH]; intros acc; [reflexivity|].
  cbn [fold_left flat_map]. rewrite fold_left_app, IH. f_equal.
  clear IH. revert acc. induction urls as [|[line_num url] urls IHu]; intros acc;
    [reflexivity|].
  cbn [fold_left map]. now rewrite IHu.
Qed.

Lemma locations_add url loc u unique_urls :
  locations u (add_location url loc unique_urls) =
    if String.eqb url u then
      Some (match locations u unique_urls with
            | Some locs => locs ++ [loc]
            | None => [loc]
            end)%list
    else locations u unique_urls.
Proof.
  induction unique_urls as [|[k locs] rest IH]; cbn [add_location locations].
  - destruct (String.eqb url u); reflexivity.
  - destruct (String.eqb k url) eqn:Ek.
    + apply String.eqb_eq in Ek as ->. cbn [locations].
      destruct (String.eqb url u); reflexivity.
    + cbn [locations]. destruct (String.eqb k u) eqn:Eu.
      * apply String.eqb_eq in Eu as ->. rewrite String.eqb_sym, Ek. reflexivity.
      * exact IH.
Qed.

Lemma locations_fold u entries unique_urls :
  locations u (fold_left step entries unique_urls) =
    match locations u unique_urls,
          map snd (filter (fun entry => String.eqb (fst entry) u) entries) with
    | None, [] => None
    | None, occ => Some occ
    | Some locs, occ => Some (locs ++ occ)%list
    end.
Proof.
  revert unique_urls. induction entries as [|[url loc] rest IH]; intros unique_urls.
  - cbn. destruct (locations u unique_urls); [now rewrite app_nil_r | reflexivity].
  - cbn [fold_left filter fst]. rewrite IH. unfold step. cbn [fst snd].
    rewrite locations_add. destruct (String.eqb url u); cbn [map snd].
    + destruct (locations u unique_urls) as [locs|].
      * now rewrite <- app_assoc.
      * reflexivity.
    + reflexivity.
Qed.

Lemma keys_add url loc unique_urls :
  NoDup (map fst unique_urls) -> NoDup (map fst (add_location url loc unique_urls)).
Proof.
  intros Hnd.
  assert (Hkeys : forall k, In k (map fst (add_location url loc unique_urls)) ->
                            k = url \/ In k (map fst unique_urls)).
  { induction unique_urls as [|[k0 locs] rest IH]; cbn [add_location map fst].
    - intros k [<- | []]. now left.
    - destruct (String.eqb k0 url); cbn [map fst].
      + intros k [<- | H]; right; [now left | now right].
      + inversion Hnd; subst.
        intros k [<- | H]; [right; now left|].
        destruct (IH H2 k H) as [-> | H']; [now left | right; now right]. }
  clear Hkeys. induction unique_urls as [|[k0 locs] rest IH];
    cbn [add_location map fst].
  - repeat constructor. intros [].
  - destruct (String.eqb k0 url) eqn:E; cbn [map fst]; [exact Hnd|].
    inversion Hnd as [|? ? Hnot Hrest]; subst. constructor; [|now apply IH].
    intros Hin. apply Hnot. clear IH Hnd Hnot Hrest.
    induction rest as [|[k1 l1] rest IH]; cbn [add_location map fst] in Hin.
    + destruct Hin as [<- | []]. rewrite String.eqb_refl in E. discriminate.
    + destruct (String.eqb k1 url); cbn [map fst] in Hin.
      * exact Hin.
      * destruct Hin as [<- | Hin]; [now left | right; now apply IH].
Qed.

Lemma keys_fold entries unique_urls :
  NoDup (map fst unique_urls) -> NoDup (map fst (fold_left step entries unique_urls)).
Proof.
  revert unique_urls. induction entries as [|entry rest IH]; intros unique_urls Hnd;
    [exact Hnd|].
  cbn [fold_left]. apply IH. now apply keys_add.
Qed.

Lemma locations_in unique_urls url locs :
  NoDup (map fst unique_urls) ->
  (In (url, locs) unique_urls <-> locations url unique_urls = Some locs).
Proof.
  induction unique_urls as [|[k l] rest IH]; intros Hnd; cbn [locations].
  - split; [intros [] | discriminate].
  - inversion Hnd as [|? ? Hnot Hrest]; subst.
    destruct (String.eqb k url) eqn:E.
    + apply String.eqb_eq in E as ->. split.
      * intros [[= ->] | Hin]; [reflexivity|].
        exfalso. apply Hnot. apply (in_map fst) in Hin. exact Hin.
      * intros [= ->]. now left.
    + rewrite <- (IH Hrest). split.
      * intros [[= -> _] | Hin]; [|exact Hin].
        rewrite String.eqb_refl in E. discriminate.
      * intros Hin. now right.
Qed.

Lemma deduplicate_entries url_map :
  NoDup (map fst (deduplicate url_map))
  /\ forall url locations,
       In (url, locations) (deduplicate url_map) <->
       locations <> [] /\ locations = occurrences url url_map.
Proof.
  rewrite deduplicate_scan.
  assert (Hnd : NoDup (map fst (fold_left step (scan url_map) [])))
    by (apply keys_fold; constructor).
  split; [exact Hnd|]. intros url locs.
  rewrite (locations_in _ _ _ Hnd), locations_fold. cbn [locations].
  fold (occurrences url url_map).
  destruct (occurrences url url_map) as [|loc rest]; split.
  - discriminate.
  - intros [Hne ->]. contradiction.
  - intros [= <-]. split; [discriminate | reflexivity].
  - intros [_ ->]. reflexivity.
Qed.

(** X14.  [unique_urls] holds every URL of the scan under one key, and
    under that key every place the URL occurs, in scan order, and nothing
    else: an entry [(url, locations)] is in it exactly when [locations] is
    the non-empty list of the URL's occurrences. *)
Theorem deduplicate_keeps_every_occurrence url_map :
  NoDup (map fst (deduplicate url_map))
  /\ forall url locations,
       In (url, locations) (deduplicate url_map) <->
       locations <> [] /\ locations = occurrences url url_map.
Proof. exact (deduplicate_entries url_map). Qed.

End DedupSpec.

Module ReportSpec.

Import LinkChecker LinkMain LinkReport DedupSpec.

Lemma collect_broken_in check completed url error locations :
  In (url, error, locations) (collect_broken check completed) <->
  In (url, locations) completed /\ check url = (false, error).
Proof.
  induction completed as [|[u locs] rest IH]; cbn [collect_broken].
  - split; [intros [] | intros [[] _]].
  - destruct (check u) as [is_valid err] eqn:E. destruct is_valid; cbn [negb].
    + rewrite IH. split.
      * intros [Hin Hc]. split; [now right | exact Hc].
      * intros [[[= -> ->] | Hin] Hc]; [congruence | now split].
    + split.
      * intros [[= -> -> ->] | H]; [split; [now left | exact E]|].
        apply IH in H as [Hin Hc]. split; [now right | exact Hc].
      * intros [[[= -> ->] | Hin] Hc].
        -- left. congruence.
        -- right. apply IH. now split.
Qed.

Lemma collect_broken_urls check completed :
  map (fun broken => fst (fst broken)) (collect_broken check completed)
  = filter (fun url => negb (fst (check url))) (map fst completed).
Proof.
  induction completed as [|[u locs] rest IH]; [reflexivity|].
  cbn [collect_broken map filter fst].
  destruct (check u) as [is_valid err]. destruct is_valid; cbn [negb fst map];
    now rewrite IH.
Qed.

Lemma broken_links_entries url_map net as_completed :
  (forall urls, Permutation (as_completed urls) urls) ->
  let check := fun url => value (check_url net url 2) in
  let broken_links :=
    collect_broken check (as_completed (deduplicate url_map)) in
  NoDup (map (fun broken => fst (fst broken)) broken_links)
  /\ forall url error locations,
       In (url, error, locations) broken_links <->
       check url = (false, error)
       /\ locations <> [] /\ locations = occurrences url url_map.
Proof.
  intros Hperm check broken_links.
  destruct (deduplicate_entries url_map) as [Hnd Hocc].
  split.
  - unfold broken_links. rewrite collect_broken_urls. apply NoDup_filter.
    apply (Permutation_NoDup (l := map fst (deduplicate url_map))); [|exact Hnd].
    apply Permutation_map, Permutation_sym, Hperm.
  - intros url error locations. unfold broken_links.
    rewrite collect_broken_in, <- Hocc. split.
    + intros [Hin Hc]. split; [exact Hc|].
      exact (Permutation_in _ (Hperm _) Hin).
    + intros [Hc Hin]. split; [|exact Hc].
      exact (Permutation_in _ (Permutation_sym (Hperm _)) Hin).
Qed.

(** X15.  Whatever the order in which the checks complete, [broken_links]
    holds exactly the unique URLs whose check is invalid, each once, with
    the check's message and all the places the URL occurs. *)
Theorem broken_links_are_the_invalid_urls url_map net as_completed :
  (forall urls, Permutation (as_completed urls) urls) ->
  let check := fun url => value (check_url net url 2) in
  let broken_links :=
    collect_broken check (as_completed (deduplicate url_map)) in
  NoDup (map (fun broken => fst (fst broken)) broken_links)
  /\ forall url error locations,
       In (url, error, locations) broken_links <->
       check url = (false, error)
       /\ locations <> [] /\ locations = occurrences url url_map.
Proof. exact (broken_links_entries url_map net as_completed). Qed.

Definition net_gone : string -> Z -> fetch_outcome :=
  fun url _ =>
    if String.eqb url "https://gone.test/" then HTTPError 404
    else Response "<html><title>Transit</title></html>".

Definition scanned : url_map_t :=
  [ ("content/a.md", [(3, "https://ok.test/"); (9, "https://gone.test/")]);
    ("data/b.yaml", [(1, "https://gone.test/")]) ].

Lemma broken_links_are_the_invalid_urls_witness :
  In ("https://gone.test/", "HTTP 404 Not Found",
      [("content/a.md", 9); ("data/b.yaml", 1)])
     (collect_broken (fun url => value (check_url net_gone url 2))
                     (rev (deduplicate scanned))).
Proof.
  destruct (broken_links_are_the_invalid_urls scanned net_gone
              (fun urls => rev urls)
              (fun urls => Permutation_sym (Permutation_rev urls))) as [_ H].
  apply H. split; [reflexivity|]. split; [discriminate | reflexivity].
Defined.

Lemma main_run_status url_map net as_completed :
  snd (main_run url_map net as_completed) = main url_map net as_completed.
Proof.
  unfold main_run, main. destruct url_map as [|f rest]; [reflexivity|].
  cbv zeta.
  now destruct (collect_broken _ (as_completed (deduplicate (f :: rest)))).
Qed.

(** The lines [main] prints before the final report or the closing line,
    when URLs were found. *)
Definition head_lines (url_map : url_map_t) (net : string -> Z -> fetch_outcome)
           (as_completed : unique_urls_t -> unique_urls_t) : list string :=
  let unique_urls := deduplicate url_map in
  let total := Z.of_nat (length unique_urls) in
  app ["Checking external links for broken URLs..."; ""]
      (app [ "Found " ++ str_of_int total ++ " unique external URLs across "
               ++ str_of_int (Z.of_nat (length url_map)) ++ " files";
             "Checking with " ++ str_of_int MAX_WORKERS ++ " concurrent workers...";
             "" ]
           (app (progress (fun url => value (check_url net url 2)) total 0
                          (as_completed unique_urls))
                [""])).

Lemma main_run_checked url_map net as_completed :
  url_map <> [] ->
  main_run url_map net as_completed =
    match collect_broken (fun url => value (check_url net url 2))
                         (as_completed (deduplicate url_map)) with
    | [] =>
        (app (head_lines url_map net as_completed)
             ["All " ++ str_of_int (Z.of_nat (length (deduplicate url_map)))
                ++ " external links are valid!"], 0)
    | broken_links =>
        (app (head_lines url_map net as_completed)
             (app [ rule;
                    "BROKEN LINKS FOUND: "
                      ++ str_of_int (Z.of_nat (length broken_links));
                    rule; "" ]
                  (flat_map report_entry broken_links)), 1)
    end.
Proof.
  intros Hne. unfold main_run, head_lines.
  destruct url_map as [|f rest] eqn:E; [contradiction|]. rewrite <- E. cbv zeta.
  now destruct (collect_broken _ (as_completed (deduplicate url_map))).
Qed.

(** X16.  What [main] prints agrees with how it exits.  For every URL
    whose check is invalid the run exits with status 1 and the final report
    shows the URL, the check's message and each place the URL occurs; when
    the run exits with status 0 after checking, the last line printed says
    that all unique URLs are valid. *)
Theorem main_report url_map net as_completed :
  (forall urls, Permutation (as_completed urls) urls) ->
  let printed := fst (main_run url_map net as_completed) in
  let status := snd (main_run url_map net as_completed) in
  status = main url_map net as_completed
  /\ (forall url error file_path line_num,
        value (check_url net url 2) = (false, error) ->
        In (file_path, line_num) (occurrences url url_map) ->
        status = 1
        /\ In ("URL: " ++ url) printed
        /\ In ("Error: " ++ error) printed
        /\ In ("  - " ++ file_path ++ ":" ++ str_of_int line_num) printed)
  /\ (status = 0 -> url_map <> [] ->
      last printed ""
      = "All " ++ str_of_int (Z.of_nat (length (deduplicate url_map)))
          ++ " external links are valid!").
Proof.
  intros Hperm printed status.
  split; [apply main_run_status|].
  destruct (broken_links_entries url_map net as_completed Hperm)
    as [_ Hbroken].
  subst printed status. split.
  - intros url error file_path line_num Hc Hocc.
    assert (Hin : In (url, error, occurrences url url_map)
                     (collect_broken (fun url => value (check_url net url 2))
                                     (as_completed (deduplicate url_map)))).
    { apply Hbroken. split; [exact Hc|]. split; [|reflexivity].
      intros Hnil. rewrite Hnil in Hocc. destruct Hocc. }
    assert (Hne : url_map <> []).
    { intros ->. destruct Hocc. }
    rewrite (main_run_checked _ _ _ Hne).
    destruct (collect_broken _ (as_completed (deduplicate url_map)))
      as [|b bs]; [destruct Hin|].
    cbn [fst snd]. split; [reflexivity|].
    assert (Hentry : forall line,
               In line (report_entry (url, error, occurrences url url_map)) ->
               In line (app (head_lines url_map net as_completed)
                          (app [ rule;
                                 "BROKEN LINKS FOUND: "
                                   ++ str_of_int (Z.of_nat (length (b :: bs)));
                                 rule; "" ]
                               (flat_map report_entry (b :: bs))))).
    { intros line Hline. apply in_or_app. right. apply in_or_app. right.
      apply in_flat_map. eexists. split; [exact Hin | exact Hline]. }
    split; [|split]; apply Hentry; unfold report_entry.
    + now left.
    + right. now left.
    + apply in_or_app. right. apply in_or_app. left.
      exact (in_map location_line _ (file_path, line_num) Hocc).
  - intros Hstatus Hne. revert Hstatus. rewrite (main_run_checked _ _ _ Hne).
    destruct (collect_broken _ (as_completed (deduplicate url_map)));
      cbn [fst snd]; [intros _; apply last_last | discriminate].
Qed.

Lemma main_report_witness :
  let printed := fst (main_run scanned net_gone (fun urls => rev urls)) in
  snd (main_run scanned net_gone (fun urls => rev urls)) = 1
  /\ In "URL: https://gone.test/" printed
  /\ In "Error: HTTP 404 Not Found" printed
  /\ In "  - data/b.yaml:1" printed.
Proof.
  destruct (main_report scanned net_gone (fun urls => rev urls)
              (fun urls => Permutation_sym (Permutation_rev urls)))
    as [_ [H _]].
  apply (H "https://gone.test/" "HTTP 404 Not Found" "data/b.yaml" 1).
  - reflexivity.
  - right. left. reflexivity.
Defined.

End ReportSpec.

(** * Further properties of the timeline validator *)

Module TimelineExtra.

Import Timeline TimelineFacts TimelineSpec.

(** An entry at which the first loop raises: a scalar that supports no
    [in] test, or a string, list or set in which ['year'] is found, so that
    [entry['year']] is evaluated on it. *)
Definition crashing (entry : yaml) : bool :=
  match entry with
  | YMap _ => false
  | YStr s => str_in "year" s
  | YSeq items | YSet items => existsb (is_key "year") items
  | YNull | YBool _ | YInt _ | YFloat _ _ | YTimestamp _ _ | YBinary _ => true
  end.

(** The error the first loop records for an entry it gets past. *)
Definition entry_errors (i : Z) (entry : yaml) : list string :=
  match entry with
  | YMap _ => structural_error i entry
  | _ => [missing_year_error i]
  end.

Fixpoint all_entry_errors (i : Z) (entries : list yaml) : list string :=
  match entries with
  | [] => []
  | entry :: rest => (entry_errors i entry ++ all_entry_errors (i + 1) rest)%list
  end.


Lemma check_year_fields_safe i entries errors :
  Forall (fun entry => crashing entry = false) entries ->
  check_year_fields i entries errors
  = Return (errors ++ all_entry_errors i entries)%list.
Proof.
  intros H. revert i errors.
  induction H as [|entry rest Hc _ IH]; intros i errors.
  - cbn. now rewrite app_nil_r.
  - cbn [check_year_fields all_entry_errors].
    destruct entry; try discriminate; cbn in Hc; cbn [contains bind entry_errors].
    + rewrite Hc. cbn [negb]. rewrite IH, <- app_assoc. reflexivity.
    + rewrite Hc. cbn [negb]. rewrite IH, <- app_assoc. reflexivity.
    + rewrite Hc. cbn [negb]. rewrite IH, <- app_assoc. reflexivity.
    + unfold structural_error. cbn [entry_year getitem].
      destruct (lookup "year" items) as [year|]; cbn [negb bind].
      * destruct (isinstance_int year); cbn [negb].
        -- apply IH.
        -- rewrite IH, <- app_assoc. reflexivity.
      * rewrite IH, <- app_assoc. reflexivity.
Qed.


Lemma int_instance_is_mapping entries :
  Forall has_int_instance_year entries -> Forall is_mapping entries.
Proof. intros H. eapply Forall_impl; [|exact H]. now intros ? [? _]. Qed.

Section WithFormatting.

Variable container_str : yaml -> string.

(** The ordering check runs to its end once the first loop found nothing. *)
Lemma validate_after_clean_fields path entries :
  entries <> [] ->
  check_year_fields 0 entries [] = Return [] ->
  validate_timeline container_str path (Document (YSeq entries))
  = Return (is_empty (order_errors container_str entries),
            order_errors container_str entries).
Proof.
  intros Hne Hrun.
  pose proof (check_year_fields_clean _ Hrun) as Hclean.
  rewrite (validate_mappings container_str path entries Hne
             (int_instance_is_mapping _ Hclean)).
  now rewrite (structural_errors_nil 0 entries Hclean).
Qed.

Lemma validate_sequence path entries :
  entries <> [] ->
  validate_timeline container_str path (Document (YSeq entries)) =
    match check_year_fields 0 entries [] with
    | Raise e => Raise e
    | Return [] =>
        Return (is_empty (order_errors container_str entries),
                order_errors container_str entries)
    | Return errors => Return (false, errors)
    end.
Proof.
  intros Hne.
  destruct (check_year_fields 0 entries []) as [[|error errors]|e] eqn:E.
  - now apply validate_after_clean_fields.
  - cbn [validate_timeline]. unfold validate_entries.
    assert (truthy (YSeq entries) = true) as ->
        by (destruct entries; [contradiction | reflexivity]).
    cbn [negb]. now rewrite E.
  - cbn [validate_timeline]. unfold validate_entries.
    assert (truthy (YSeq entries) = true) as ->
        by (destruct entries; [contradiction | reflexivity]).
    cbn [negb]. now rewrite E.
Qed.

Lemma validate_not_sequence path file :
  (forall entries, file = Document (YSeq entries) -> entries = []) ->
  (exists error,
      validate_timeline container_str path file = Return (false, [error]))
  \/ (exists e, file = LoadError e).
Proof.
  intros H.
  destruct file as [| detail | document | e]; try (left; eexists; reflexivity);
    [|right; now exists e].
  left.
  destruct document as [| b | n | nonzero text | s | has_time text | data
                        | entries | members | items];
    try (unfold validate_timeline, validate_entries;
         match goal with |- context [truthy ?v] => destruct (truthy v) end;
         eexists; reflexivity).
  rewrite (H entries eq_refl). eexists. reflexivity.
Qed.

Lemma file_cases file :
  (exists entries, file = Document (YSeq entries) /\ entries <> [])
  \/ (forall entries, file = Document (YSeq entries) -> entries = []).
Proof.
  destruct file as [| detail | document | e]; try (right; discriminate).
  destruct document as [| b | n | nonzero text | s | has_time text | data
                        | entries | members | items]; try (right; discriminate).
  destruct entries as [|entry rest].
  - right. now intros ? [= <-].
  - left. eexists. split; [reflexivity | discriminate].
Qed.

Lemma accepted_files path file :
  validate_timeline container_str path file = Return (true, []) <->
  exists entries,
    file = Document (YSeq entries)
    /\ entries <> []
    /\ Forall has_int_instance_year entries
    /\ forall i, 0 <= i < Z.of_nat (length entries) - 1 ->
                 year_of entries i >= year_of entries (i + 1).
Proof.
  split.
  - intros Hv. destruct (file_cases file) as [[entries [-> Hne]] | Hno].
    + exists entries. split; [reflexivity|]. split; [exact Hne|].
      rewrite (validate_sequence path entries Hne) in Hv.
      destruct (check_year_fields 0 entries []) as [[|error errors]|e] eqn:E;
        try discriminate.
      split; [now apply check_year_fields_clean|].
      apply (order_errors_nil container_str). now injection Hv.
    + destruct (validate_not_sequence path file Hno) as [[error He] | [e ->]];
        [rewrite He in Hv|]; discriminate.
  - intros [entries [-> [Hne [Hclean Hord]]]].
    rewrite (validate_mappings container_str path entries Hne
               (int_instance_is_mapping _ Hclean)).
    rewrite (structural_errors_nil 0 entries Hclean).
    now rewrite (proj2 (order_errors_nil container_str entries) Hord).
Qed.

(** X17.  [validate_timeline] accepts a file exactly when it holds a
    non-empty sequence of mappings whose [year] values are all [int]
    instances and never increase from one entry to the next. *)
Theorem validate_timeline_accepts_iff path file :
  validate_timeline container_str path file = Return (true, []) <->
  exists entries,
    file = Document (YSeq entries)
    /\ entries <> []
    /\ Forall has_int_instance_year entries
    /\ forall i, 0 <= i < Z.of_nat (length entries) - 1 ->
                 year_of entries i >= year_of entries (i + 1).
Proof. exact (accepted_files path file). Qed.

(** X18.  Whenever [validate_timeline] returns, the flag it returns is true
    exactly when its error list is empty; an invalid result always carries
    at least one message. *)
Theorem validate_timeline_flag_matches_errors path file is_valid errors :
  validate_timeline container_str path file = Return (is_valid, errors) ->
  (is_valid = true <-> errors = []).
Proof.
  intros Hv. destruct (file_cases file) as [[entries [-> Hne]] | Hno].
  - rewrite (validate_sequence path entries Hne) in Hv.
    destruct (check_year_fields 0 entries []) as [[|error rest]|e];
      try discriminate.
    + injection Hv as <- <-.
      destruct (order_errors container_str entries); cbn; split;
        (reflexivity || discriminate).
    + injection Hv as <- <-. split; discriminate.
  - destruct (validate_not_sequence path file Hno) as [[error He] | [e ->]];
      [|discriminate].
    rewrite He in Hv. injection Hv as <- <-. split; discriminate.
Qed.


(** X20.  An entry that is a string, list or set without ['year'] in it is
    reported like a mapping without the key: on a sequence whose entries
    the first loop gets past, with at least one entry that is no mapping
    with an [int] instance under [year], [validate_timeline] returns invalid
    with one error per such entry, in order, "Entry {n} is missing 'year'
    field" for each entry that is no mapping. *)
Theorem validate_timeline_reports_non_mappings path entries :
  Forall (fun entry => crashing entry = false) entries ->
  Exists (fun entry => ~ has_int_instance_year entry) entries ->
  validate_timeline container_str path (Document (YSeq entries))
  = Return (false, all_entry_errors 0 entries)
  /\ all_entry_errors 0 entries <> [].
Proof.
  intros Hsafe Hbad.
  assert (Hne : entries <> []) by (destruct Hbad; discriminate).
  assert (Herr : all_entry_errors 0 entries <> []).
  { intros Hnil.
    pose proof (check_year_fields_safe 0 entries [] Hsafe) as Hrun.
    cbn [app] in Hrun. rewrite Hnil in Hrun.
    pose proof (check_year_fields_clean _ Hrun) as Hclean.
    apply Exists_exists in Hbad as [entry [Hin Hno]].
    exact (Hno (proj1 (Forall_forall _ _) Hclean entry Hin)). }
  split; [|exact Herr].
  rewrite (validate_sequence path entries Hne).
  rewrite (check_year_fields_safe 0 entries [] Hsafe). cbn [app].
  destruct (all_entry_errors 0 entries); [contradiction | reflexivity].
Qed.

End WithFormatting.

Lemma validate_timeline_accepts_iff_witness :
  validate_timeline no_container_str "data/timeline.yaml"
    (Document (YSeq [ YMap [(YStr "year", YInt 2021)];
                      YMap [(YStr "year", YBool true); (YStr "title", YStr "Founding")] ]))
  = Return (true, []).
Proof.
  apply (validate_timeline_accepts_iff no_container_str).
  eexists. split; [reflexivity|]. split; [discriminate|]. split.
  - repeat constructor; try (eexists; reflexivity);
      eexists; split; reflexivity.
  - intros i Hi. cbn in Hi. assert (i = 0) as -> by lia. vm_compute. discriminate.
Defined.

Lemma validate_timeline_flag_matches_errors_witness :
  true = true <-> @nil string = [].
Proof.
  apply (validate_timeline_flag_matches_errors no_container_str
           "data/timeline.yaml" (Document descending_pair) true []).
  reflexivity.
Defined.


Lemma validate_timeline_reports_non_mappings_witness :
  validate_timeline no_container_str "data/timeline.yaml"
    (Document (YSeq [ YMap [(YStr "year", YInt 2021)]; YStr "2020: streetcar" ]))
  = Return (false, ["Entry 2 is missing 'year' field"]).
Proof.
  apply (validate_timeline_reports_non_mappings no_container_str
           "data/timeline.yaml"
           [ YMap [(YStr "year", YInt 2021)]; YStr "2020: streetcar" ]).
  - repeat constructor.
  - right. left. intros [[items H] _]. discriminate.
Defined.

End TimelineExtra.

Module TimelineMainSpec.

Import Timeline TimelineFacts TimelineSpec TimelineExtra TimelineMain.

(** The integer a mapping entry carries under [year] (0 when it carries
    none). *)
Definition entry_year_value (entry : yaml) : Z :=
  match int_value (raw_year entry) with
  | Some n => n
  | None => 0
  end.

(** Each year is at least the one after it. *)
Fixpoint descending (years : list Z) : Prop :=
  match years with
  | a :: (b :: _) as rest => a >= b /\ descending rest
  | _ => True
  end.

Lemma year_of_nth entries i :
  0 <= i ->
  year_of entries i = nth (Z.to_nat i) (map entry_year_value entries) 0.
Proof.
  intros Hi. unfold year_of, year_at. generalize (Z.to_nat i). clear i Hi.
  induction entries as [|entry rest IH]; intros [|k]; cbn [nth_error map nth];
    try reflexivity.
  apply IH.
Qed.

Lemma adjacent_descending entries :
  (forall i, 0 <= i < Z.of_nat (length entries) - 1 ->
             year_of entries i >= year_of entries (i + 1)) ->
  descending (map entry_year_value entries).
Proof.
  intros H.
  assert (Hn : forall k, (S k < length (map entry_year_value entries))%nat ->
                 nth k (map entry_year_value entries) 0
                 >= nth (S k) (map entry_year_value entries) 0).
  { intros k Hk. rewrite length_map in Hk.
    specialize (H (Z.of_nat k) ltac:(lia)).
    rewrite !year_of_nth in H by lia.
    replace (Z.to_nat (Z.of_nat k + 1)) with (S k) in H by lia.
    now rewrite Nat2Z.id in H. }
  clear H. induction (map entry_year_value entries) as [|a years IH]; [exact I|].
  destruct years as [|b years]; [exact I|]. split.
  - apply (Hn 0%nat). cbn. lia.
  - apply IH. intros k Hk. apply (Hn (S k)). cbn in *. lia.
Qed.

Lemma descending_from a years :
  descending (a :: years) -> Forall (fun y => a >= y) years.
Proof.
  revert a. induction years as [|b years IH]; intros a H; [constructor|].
  destruct H as [Hab Hrest]. constructor; [exact Hab|].
  eapply Forall_impl; [|exact (IH b Hrest)]. cbn. intros; lia.
Qed.

Lemma descending_nth years :
  descending years ->
  forall i j, (i <= j < length years)%nat -> nth i years 0 >= nth j years 0.
Proof.
  induction years as [|a years IH]; intros H i j Hij; [cbn in Hij; lia|].
  destruct i as [|i].
  - destruct j as [|j]; [lia|]. cbn [nth].
    pose proof (descending_from a years H) as Hall.
    apply (proj1 (Forall_forall _ _) Hall). apply nth_In. cbn in Hij. lia.
  - destruct j as [|j]; [lia|]. cbn [nth]. apply IH; [|cbn in Hij; lia].
    destruct years; [exact I | exact (proj2 H)].
Qed.

Section WithFormatting.

Variable container_str : yaml -> string.

(** X21.  In a timeline that [validate_timeline] accepts, any entry's year
    is at least the year of every entry after it, not only of the next
    one. *)
Theorem accepted_timeline_is_sorted path entries :
  validate_timeline container_str path (Document (YSeq entries)) = Return (true, []) ->
  forall i j, 0 <= i <= j -> j < Z.of_nat (length entries) ->
              year_of entries i >= year_of entries j.
Proof.
  intros Hv i j Hij Hj.
  apply (accepted_files container_str) in Hv
    as [entries' [[= <-] [_ [_ Hord]]]].
  rewrite !year_of_nth by lia.
  apply descending_nth; [now apply adjacent_descending|].
  rewrite length_map. lia.
Qed.










End WithFormatting.

Definition three_entries : list yaml :=
  [ YMap [(YStr "year", YInt 2021); (YStr "title", YStr "Upzone")];
    YMap [(YStr "year", YInt 2009)];
    YMap [(YStr "year", YInt 2009)] ].

Lemma accepted_timeline_is_sorted_witness :
  year_of three_entries 0 >= year_of three_entries 2.
Proof.
  apply (accepted_timeline_is_sorted no_container_str "data/timeline.yaml"
           three_entries eq_refl 0 2); cbn; lia.
Defined.



End TimelineMainSpec.

Module NoUrlsSpec.

Import LinkChecker LinkMain LinkReport DedupSpec ReportSpec FileScanSpec.

Lemma occurrences_in url_map file_path urls line_num url :
  In (file_path, urls) url_map ->
  In (line_num, url) urls ->
  In (file_path, line_num) (occurrences url url_map).
Proof.
  intros Hfile Hurl. unfold occurrences.
  apply (in_map snd _ (url, (file_path, line_num))).
  apply filter_In. split; [|apply String.eqb_refl].
  unfold scan. apply in_flat_map. exists (file_path, urls). split; [exact Hfile|].
  exact (in_map (fun '(line_num, url) => (url, (file_path, line_num))) _
                (line_num, url) Hurl).
Qed.

(** X24.  Scan and report fit together: [main] prints "No external URLs
    found in the repository." (and nothing after it, exiting with status 0)
    exactly when no line of any file yields a URL; otherwise it goes on to
    check at least one unique URL. *)
Theorem main_without_urls files net as_completed :
  (main_run (find_external_urls files) net as_completed
   = ([ "Checking external links for broken URLs..."; "";
        "No external URLs found in the repository." ], 0)
   <-> forall rel_path lines, In (rel_path, lines) files -> file_urls 1 lines = [])
  /\ (find_external_urls files <> [] ->
      1 <= Z.of_nat (length (deduplicate (find_external_urls files)))).
Proof.
  destruct (find_external_urls_characterised files) as [Hin Hnil]. split.
  - rewrite <- Hnil. split.
    + intros Hrun. destruct (find_external_urls files) as [|f rest] eqn:E;
        [reflexivity|].
      rewrite main_run_checked in Hrun by discriminate.
      destruct (collect_broken _ _); unfold head_lines in Hrun; cbn [app] in Hrun;
        injection Hrun as _ H; discriminate.
    + intros ->. reflexivity.
  - intros Hne.
    assert (exists path urls rest,
               find_external_urls files = (path, urls) :: rest)
      as [path [urls [rest E]]]
      by (destruct (find_external_urls files) as [|[path urls] rest];
          [contradiction | now exists path, urls, rest]).
    assert (Hfile : In (path, urls) (find_external_urls files))
      by (rewrite E; now left).
    apply Hin in Hfile as [Hurls _].
    destruct urls as [|[line_num url] urls]; [contradiction|].
    assert (Hocc : In (path, line_num) (occurrences url (find_external_urls files))).
    { apply (occurrences_in _ path ((line_num, url) :: urls)); [|now left].
      rewrite E. now left. }
    destruct (deduplicate_entries (find_external_urls files))
      as [_ Hdedup].
    assert (Hentry : In (url, occurrences url (find_external_urls files))
                        (deduplicate (find_external_urls files))).
    { apply Hdedup. split; [|reflexivity]. intros H0. rewrite H0 in Hocc.
      destruct Hocc. }
    destruct (deduplicate (find_external_urls files)); [destruct Hentry|].
    cbn [length]. lia.
Qed.

Lemma main_without_urls_witness :
  main_run (find_external_urls [("content/a.md", ["# Transit"; "No links here."])])
           (fun _ _ => HTTPError 404) (fun urls => urls)
  = ([ "Checking external links for broken URLs..."; "";
       "No external URLs found in the repository." ], 0).
Proof.
  apply (main_without_urls [("content/a.md", ["# Transit"; "No links here."])]).
  intros rel_path lines [[= <- <-] | []]. reflexivity.
Defined.

End NoUrlsSpec.
